(** * singlefleet: a batching fetcher, and what its code guarantees

    The Go package [singlefleet] (file [singlefleet.go]) coalesces concurrent
    [Fetch(id)] calls into batches that one caller-supplied [Job] serves.
    The code is short but entirely concurrent: a coordination mutex
    [fc.mu], a per-batch mutex [b.mu], a [sync.WaitGroup] used as completion
    barrier and an unbuffered channel [b.csig] used as seal signal.

    The development below embeds the package as an interleaving machine:
    every goroutine executing [Fetch] or [FetchNow] is a program counter
    over the statements of the source, the shared memory is the [Fetcher]
    and a heap of [batch] objects, and a scheduler picks which goroutine
    performs its next statement.  Statements that block in Go ([Lock] on a
    held mutex, [Wait] on a non-zero counter, a send without receiver) are
    not enabled in the machine. *)

From stdpp Require Import gmap strings list fin_maps.
From Stdlib Require Import ZArith.

(** ** Data model *)

(** A Go [interface{}] value as the jobs of the test-suite produce them;
    [INil] is the zero value that a failed map lookup yields. *)
Inductive iface :=
  | INil
  | IStr (s : string)
  | IInt (z : Z).

#[global] Instance iface_eq_dec : EqDecision iface.
Proof. solve_decision. Defined.

(** An [error] value is identified by its message; [nil] is [None]. *)
Definition error := string.

(** What a call of a job delivers when it returns: [vals] and [err].
    A [nil] map and an empty map read alike, both are [∅]. *)
Definition answer := (gmap string iface * option error)%type.

(** How a call of a job ends: it returns, it panics, or it never returns. *)
Inductive outcome :=
  | Returns (r : answer)
  | Panics (why : string)
  | Hangs.

(** [type Job func(ids []string) (vals map[string]interface{}, err error)].
    A job is known by how its call ends for each list of ids.  A job whose
    calls depend on one another, or which itself calls the fetcher it
    serves, is outside the model. *)
Definition Job := list string → outcome.

(** The job that computes [f] and returns. *)
Definition job_of (f : list string → answer) : Job :=
  λ ids, Returns (f ids).

(** The mapping and the error of a call that returned. *)
Definition answer_of (o : outcome) : answer :=
  match o with
  | Returns r => r
  | _ => (∅, None)
  end.

(** [type batch struct].  Pointers to batches are indices into the heap.
    [b_mu] is [true] while the mutex is held, [b_wg] is the counter of the
    wait group, [b_csig] is [true] once the channel is closed (the channel
    is unbuffered, so it never holds an element). *)
Record batch := Batch {
  b_vals : gmap string iface;
  b_err : option error;
  b_ids : list string;
  b_mu : bool;
  b_wg : nat;
  b_csig : bool;
}.

(** [type Fetcher struct].  [fc_f] is [None] for a [nil] job. *)
Record Fetcher := MkFetcher {
  fc_maxw : Z;
  fc_maxb : Z;
  fc_mu : bool;
  fc_m : gmap string nat;
  fc_b : option nat;
  fc_f : option Job;
}.

(** [func NewFetcher(job Job, maxWait time.Duration, maxBatch int) *Fetcher] *)
Definition NewFetcher (job : option Job) (maxWait maxBatch : Z) : Fetcher :=
  {| fc_f := job; fc_maxw := maxWait; fc_maxb := maxBatch;
     fc_m := ∅; fc_mu := false; fc_b := None |}.

(** The triple [(val, ok, err)] that [Fetch] returns. *)
Record result := Result {
  r_val : iface;
  r_ok : bool;
  r_err : option error;
}.

#[global] Instance result_eq_dec : EqDecision result.
Proof. solve_decision. Defined.

(** [val, ok = b.vals[id]; return val, ok, b.err] *)
Definition read (bt : batch) (id : string) : result :=
  {| r_val := default INil (b_vals bt !! id);
     r_ok := bool_decide (is_Some (b_vals bt !! id));
     r_err := b_err bt |}.

(** ** Goroutines *)

(** Program points of [Fetch] and [FetchNow]; the comments give the source
    line the goroutine is about to execute.  A point that carries [b] has
    the batch pointer in its local variable [b]. *)
Inductive pc :=
  (* Fetch, common prefix *)
  | PFetch                      (* 61: fc.mu.Lock() *)
  | PRoute                      (* 64-108: the routing decision, lock held *)
  (* id already registered *)
  | PWait (b : nat)             (* 67: b.wg.Wait(), then 68-69 *)
  (* a pending batch exists: the joiner *)
  | PJLockB (b : nat)           (* 78: b.mu.Lock() *)
  | PJAppend (b : nat)          (* 79-80: append, compare with maxb *)
  | PJLockFc (b : nat)          (* 81: fc.mu.Lock() *)
  | PJSend (b : nat)            (* 82: b.csig <- struct{}{} *)
  | PJUnlockB (b : nat)         (* 84: b.mu.Unlock() *)
  | PJWait (b : nat)            (* 87: b.wg.Wait() *)
  | PJCleanLock (b : nat)       (* 90: fc.mu.Lock() *)
  | PJClean (b : nat)           (* 91-95: delete, Unlock, read, return *)
  (* no pending batch: the opener *)
  | PSelect (b : nat)           (* 111-112: NewTimer, select *)
  | PTLock (b : nat)            (* 114: fc.mu.Lock() in the timer case *)
  | PTClose (b : nat)           (* 115: close(b.csig) *)
  | PDetach (b : nat)           (* 117-120: fc.b = nil; fc.mu.Unlock() *)
  | PDoFetch (b : nat)          (* 123: fc.doFetch(b) *)
  | PWgDone (b : nat)           (* 124: b.wg.Done() *)
  | POCleanLock (b : nat)       (* 127: fc.mu.Lock() *)
  | POClean (b : nat)           (* 128-132: delete, Unlock, read, return *)
  | PReturn (b : nat) (r : result)   (* Fetch has returned r, served by b *)
  (* FetchNow *)
  | PNow                        (* 138: fc.mu.Lock() *)
  | PNowCheck                   (* 141: if fc.b == nil *)
  | PNowSend                    (* 147: fc.b.csig <- struct{}{} *)
  | PNowReturn (r : bool).      (* FetchNow has returned r *)

#[global] Instance pc_eq_dec : EqDecision pc.
Proof. solve_decision. Defined.

(** A goroutine: the argument [id] of its call and its program point. *)
Record goroutine := Go {
  g_id : string;
  g_pc : pc;
}.

(** A call a client makes on the fetcher. *)
Inductive call :=
  | CFetch (id : string)
  | CFetchNow.

Definition spawn (c : call) : goroutine :=
  match c with
  | CFetch id => Go id PFetch
  | CFetchNow => Go EmptyString PNow
  end.

(** An unrecovered panic (or a fatal runtime error) ends the program. *)
Inductive status :=
  | Running
  | Panicked (why : string).

(** The machine state: the fetcher, the heap of batches, the goroutines,
    and the history of the job calls that returned (batch pointer and
    [ids] passed), most recent first. *)
Record state := State {
  fc : Fetcher;
  heap : list batch;
  pool : list goroutine;
  calls : list (nat * list string);
  st : status;
}.

Definition boot (f : Fetcher) (cs : list call) : state :=
  {| fc := f; heap := []; pool := spawn <$> cs; calls := []; st := Running |}.

(** *** State updates *)

Definition with_fc (f : Fetcher) (s : state) : state :=
  State f (heap s) (pool s) (calls s) (st s).

Definition set_mu (v : bool) (s : state) : state :=
  with_fc (MkFetcher (fc_maxw (fc s)) (fc_maxb (fc s)) v (fc_m (fc s))
             (fc_b (fc s)) (fc_f (fc s))) s.

Definition set_m (m : gmap string nat) (s : state) : state :=
  with_fc (MkFetcher (fc_maxw (fc s)) (fc_maxb (fc s)) (fc_mu (fc s)) m
             (fc_b (fc s)) (fc_f (fc s))) s.

Definition set_b (ob : option nat) (s : state) : state :=
  with_fc (MkFetcher (fc_maxw (fc s)) (fc_maxb (fc s)) (fc_mu (fc s))
             (fc_m (fc s)) ob (fc_f (fc s))) s.

Definition store (b : nat) (bt : batch) (s : state) : state :=
  State (fc s) (<[b := bt]> (heap s)) (pool s) (calls s) (st s).

Definition alloc (bt : batch) (s : state) : state :=
  State (fc s) (heap s ++ [bt]) (pool s) (calls s) (st s).

Definition jump (t : nat) (id : string) (p : pc) (s : state) : state :=
  State (fc s) (heap s) (<[t := Go id p]> (pool s)) (calls s) (st s).

Definition record_call (b : nat) (l : list string) (s : state) : state :=
  State (fc s) (heap s) (pool s) ((b, l) :: calls s) (st s).

Definition panic (why : string) (s : state) : state :=
  State (fc s) (heap s) (pool s) (calls s) (Panicked why).

(** [make([]string, 0, n)] as [runtime.makeslice] checks it on a 64-bit
    platform: it panics when [n] is negative or when [n] strings of 16
    bytes exceed [maxAlloc], which is 2^48 bytes. *)
Definition maxAlloc : Z := 2 ^ 48.

Definition makeslice_panics (n : Z) : bool :=
  (n <? 0)%Z || (maxAlloc <? n * 16)%Z.

(** [sync.Mutex] on [fc.mu]: [Lock] blocks while the mutex is held,
    [Unlock] of a free mutex is a fatal error. *)
Definition lock_fc (s : state) : option state :=
  if fc_mu (fc s) then None else Some (set_mu true s).

Definition unlock_fc (s : state) : state :=
  State (fc (set_mu false s)) (heap s) (pool s) (calls s)
    (if fc_mu (fc s) then st s
     else Panicked "sync: unlock of unlocked mutex").

(** The goroutine blocked in the [select] of batch [b] (line 112), if any:
    the only receiver [b.csig] ever has. *)
Definition receiver (b : nat) (gs : list goroutine) : option (nat * goroutine) :=
  list_find (λ g, g_pc g = PSelect b) gs.

(** [b.csig <- struct{}{}] by goroutine [t], which continues at [next].
    Sending on a closed channel panics; on an open one the send completes
    when the opener takes it in its [select], which resumes after the
    [case <-b.csig] at [PDetach]; without receiver the send blocks. *)
Definition send (s : state) (t : nat) (id : string) (b : nat) (next : pc)
  : option state :=
  bt ← heap s !! b;
  if b_csig bt then Some (panic "send on closed channel" s)
  else
    '(r, g) ← receiver b (pool s);
    Some (jump r (g_id g) (PDetach b) (jump t id next s)).

(** ** One statement of one goroutine

    Granularity.  Every [Lock], every blocking operation and every access
    to a batch outside [fc.mu] is a transition of its own.  The statements
    a goroutine executes between taking [fc.mu] and releasing it touch only
    the fetcher and, for a new batch, an object nobody else can reach yet;
    they are one transition ([PRoute], [PDetach], [PJClean], [POClean]).
    [doFetch] reads [c.ids] without holding [b.mu]; the machine reads the
    list atomically.  Time is abstracted: the timer of line 111 may expire
    at any moment while its goroutine is in the select, which is the
    scheduler's [Expire]; a timer that has expired commits the select to
    its first case.

    Failures.  [make] with a capacity that [makeslice] rejects, a call of
    a nil function, a panic of the job, a send on a closed channel,
    [close] of a closed channel, a negative wait-group counter and
    [Unlock] of a free mutex end the program: no caller recovers.  A job
    that never returns leaves its caller at line 123 for ever.  Memory is
    not exhausted: an allocation that the runtime attempts succeeds. *)

Definition exec (s : state) (t : nat) (id : string) (p : pc) : option state :=
  match p with
  | PFetch => jump t id PRoute <$> lock_fc s
  | PRoute =>
      match fc_m (fc s) !! id with
      | Some b => Some (unlock_fc (jump t id (PWait b) s))
      | None =>
          match fc_b (fc s) with
          | Some b =>
              Some (unlock_fc (jump t id (PJLockB b)
                                 (set_m (<[id := b]> (fc_m (fc s))) s)))
          | None =>
              if makeslice_panics (fc_maxb (fc s))
              then Some (panic "makeslice: cap out of range" s)
              else
                let b := length (heap s) in
                Some (unlock_fc (jump t id (PSelect b)
                        (set_m (<[id := b]> (fc_m (fc s)))
                           (set_b (Some b)
                              (alloc (Batch ∅ None [id] false 1 false) s)))))
          end
      end
  | PWait b =>
      bt ← heap s !! b;
      if decide (b_wg bt = 0) then Some (jump t id (PReturn b (read bt id)) s)
      else None
  | PJLockB b =>
      bt ← heap s !! b;
      if b_mu bt then None
      else Some (jump t id (PJAppend b)
                   (store b (Batch (b_vals bt) (b_err bt) (b_ids bt) true
                               (b_wg bt) (b_csig bt)) s))
  | PJAppend b =>
      bt ← heap s !! b;
      let l := b_ids bt ++ [id] in
      let s' := store b (Batch (b_vals bt) (b_err bt) l (b_mu bt)
                           (b_wg bt) (b_csig bt)) s in
      if (fc_maxb (fc s) <=? Z.of_nat (length l))%Z
      then Some (jump t id (PJLockFc b) s')
      else Some (jump t id (PJUnlockB b) s')
  | PJLockFc b => jump t id (PJSend b) <$> lock_fc s
  | PJSend b => send s t id b (PJUnlockB b)
  | PJUnlockB b =>
      bt ← heap s !! b;
      if b_mu bt
      then Some (jump t id (PJWait b)
                   (store b (Batch (b_vals bt) (b_err bt) (b_ids bt) false
                               (b_wg bt) (b_csig bt)) s))
      else Some (panic "sync: unlock of unlocked mutex" s)
  | PJWait b =>
      bt ← heap s !! b;
      if decide (b_wg bt = 0) then Some (jump t id (PJCleanLock b) s)
      else None
  | PJCleanLock b => jump t id (PJClean b) <$> lock_fc s
  | PJClean b =>
      bt ← heap s !! b;
      Some (unlock_fc (jump t id (PReturn b (read bt id))
                         (set_m (delete id (fc_m (fc s))) s)))
  | PSelect b => None
  | PTLock b => jump t id (PTClose b) <$> lock_fc s
  | PTClose b =>
      bt ← heap s !! b;
      if b_csig bt then Some (panic "close of closed channel" s)
      else Some (jump t id (PDetach b)
                   (store b (Batch (b_vals bt) (b_err bt) (b_ids bt) (b_mu bt)
                               (b_wg bt) true) s))
  | PDetach b => Some (unlock_fc (jump t id (PDoFetch b) (set_b None s)))
  | PDoFetch b =>
      bt ← heap s !! b;
      match fc_f (fc s) with
      | None => Some (panic "invalid memory address or nil pointer dereference" s)
      | Some job =>
          match job (b_ids bt) with
          | Returns r =>
              Some (jump t id (PWgDone b)
                      (record_call b (b_ids bt)
                         (store b (Batch r.1 r.2 (b_ids bt) (b_mu bt)
                                     (b_wg bt) (b_csig bt)) s)))
          | Panics why => Some (panic why s)
          | Hangs => None
          end
      end
  | PWgDone b =>
      bt ← heap s !! b;
      match b_wg bt with
      | O => Some (panic "sync: negative WaitGroup counter" s)
      | S n =>
          Some (jump t id (POCleanLock b)
                  (store b (Batch (b_vals bt) (b_err bt) (b_ids bt) (b_mu bt)
                              n (b_csig bt)) s))
      end
  | POCleanLock b => jump t id (POClean b) <$> lock_fc s
  | POClean b =>
      bt ← heap s !! b;
      Some (unlock_fc (jump t id (PReturn b (read bt id))
                         (set_m (delete id (fc_m (fc s))) s)))
  | PReturn _ _ => None
  | PNow => jump t id PNowCheck <$> lock_fc s
  | PNowCheck =>
      match fc_b (fc s) with
      | None => Some (unlock_fc (jump t id (PNowReturn false) s))
      | Some _ => Some (jump t id PNowSend s)
      end
  | PNowSend =>
      match fc_b (fc s) with
      | None => Some (panic "invalid memory address or nil pointer dereference" s)
      | Some b => send s t id b (PNowReturn true)
      end
  | PNowReturn _ => None
  end.

(** What the scheduler may do: let goroutine [t] execute its next
    statement, or let the timer of the opener [t] expire while it is
    blocked in its [select]. *)
Inductive action :=
  | Run (t : nat)
  | Expire (t : nat).

Definition step (s : state) (a : action) : option state :=
  match st s with
  | Panicked _ => None
  | Running =>
      match a with
      | Run t => g ← pool s !! t; exec s t (g_id g) (g_pc g)
      | Expire t =>
          g ← pool s !! t;
          match g_pc g with
          | PSelect b => Some (jump t (g_id g) (PTLock b) s)
          | _ => None
          end
      end
  end.

Fixpoint run (s : state) (l : list action) : option state :=
  match l with
  | [] => Some s
  | a :: l => s' ← step s a; run s' l
  end.

Inductive reachable (s0 : state) : state → Prop :=
  | reach_start : reachable s0 s0
  | reach_step s a s' : reachable s0 s → step s a = Some s' → reachable s0 s'.


(** ** Classes of program points *)

(** The batch whose pointer the goroutine holds. *)
Definition served_by (p : pc) : option nat :=
  match p with
  | PWait b | PJLockB b | PJAppend b | PJLockFc b | PJSend b | PJUnlockB b
  | PJWait b | PJCleanLock b | PJClean b | PSelect b | PTLock b | PTClose b
  | PDetach b | PDoFetch b | PWgDone b | POCleanLock b | POClean b
  | PReturn b _ => Some b
  | _ => None
  end.

(** The goroutine wrote [fc.m[id] = b] (lines 76 and 107) and has not yet
    executed its own [delete(fc.m, id)] (lines 91 and 128). *)
Definition registrant (p : pc) : option nat :=
  match p with
  | PJLockB b | PJAppend b | PJLockFc b | PJSend b | PJUnlockB b
  | PJWait b | PJCleanLock b | PJClean b | PSelect b | PTLock b | PTClose b
  | PDetach b | PDoFetch b | PWgDone b | POCleanLock b | POClean b => Some b
  | _ => None
  end.

(** A joiner that is registered but has not yet appended its id. *)
Definition pending (p : pc) : option nat :=
  match p with
  | PJLockB b | PJAppend b => Some b
  | _ => None
  end.

(** The goroutine's id is in [b.ids] and it has not passed the barrier. *)
Definition appended (p : pc) : option nat :=
  match p with
  | PJLockFc b | PJSend b | PJUnlockB b | PJWait b
  | PSelect b | PTLock b | PTClose b | PDetach b | PDoFetch b
  | PWgDone b => Some b
  | _ => None
  end.

(** The opener between the creation of its batch and line 119. *)
Definition opening (p : pc) : option nat :=
  match p with
  | PSelect b | PTLock b | PTClose b | PDetach b => Some b
  | _ => None
  end.

(** The opener before it calls the job. *)
Definition before_call (p : pc) : option nat :=
  match p with
  | PSelect b | PTLock b | PTClose b | PDetach b | PDoFetch b => Some b
  | _ => None
  end.

(** The opener up to [b.wg.Done()]. *)
Definition opener (p : pc) : option nat :=
  match p with
  | PSelect b | PTLock b | PTClose b | PDetach b | PDoFetch b
  | PWgDone b => Some b
  | _ => None
  end.

(** A participant that has passed [b.wg.Wait()] or [b.wg.Done()]. *)
Definition past_barrier (p : pc) : option nat :=
  match p with
  | PJCleanLock b | PJClean b | POCleanLock b | POClean b => Some b
  | _ => None
  end.

(** The opener once it has called the job, up to its return. *)
Definition called_by (p : pc) : option nat :=
  match p with
  | PWgDone b | POCleanLock b | POClean b | PReturn b _ => Some b
  | _ => None
  end.

(** A fetcher as [NewFetcher] returns it, with the calls of its clients. *)
Definition start (job : option Job) (maxWait maxBatch : Z) (cs : list call)
  : state :=
  boot (NewFetcher job maxWait maxBatch) cs.

(** ** The invariant of the machine

    Everything below holds in every state the machine reaches from
    [start]; [inv_step] proves it statement by statement. *)
Record inv (s : state) : Prop := {
  (* pointers held by goroutines, registry and history are allocated *)
  inv_ptr : ∀ t g b,
    pool s !! t = Some g → served_by (g_pc g) = Some b → b < length (heap s);
  inv_reg_ptr : ∀ x b, fc_m (fc s) !! x = Some b → b < length (heap s);
  inv_calls_ptr : ∀ b l, (b, l) ∈ calls s → b < length (heap s);
  (* the open slot belongs to an opener that has not passed line 119 *)
  inv_open : ∀ b, fc_b (fc s) = Some b →
    ∃ t g, pool s !! t = Some g ∧ opening (g_pc g) = Some b;
  (* a batch has one opener; its job call is logged between lines 123
     and 124 and not before; the counter is 1 up to line 124 *)
  inv_opener : ∀ t1 t2 g1 g2 b,
    pool s !! t1 = Some g1 → pool s !! t2 = Some g2 →
    opener (g_pc g1) = Some b → opener (g_pc g2) = Some b → t1 = t2;
  inv_before : ∀ t g b l,
    pool s !! t = Some g → before_call (g_pc g) = Some b → (b, l) ∉ calls s;
  inv_after : ∀ t g b,
    pool s !! t = Some g → g_pc g = PWgDone b → ∃ l, (b, l) ∈ calls s;
  inv_counter : ∀ t g b bt,
    pool s !! t = Some g → opener (g_pc g) = Some b →
    heap s !! b = Some bt → b_wg bt = 1;
  (* every batch has been served or has its opener on the way; a logged
     call has its caller; a released barrier has its call *)
  inv_live : ∀ b bt, heap s !! b = Some bt →
    (∃ l, (b, l) ∈ calls s) ∨
    (∃ t g, pool s !! t = Some g ∧ before_call (g_pc g) = Some b);
  inv_caller : ∀ b l, (b, l) ∈ calls s →
    ∃ t g, pool s !! t = Some g ∧ called_by (g_pc g) = Some b;
  inv_released : ∀ b bt,
    heap s !! b = Some bt → b_wg bt = 0 → ∃ l, (b, l) ∈ calls s;
  (* one call per batch, with a duplicate-free prefix of [b.ids], whose
     outcome is what the batch stores *)
  inv_calls_nodup : NoDup ((calls s).*1);
  inv_calls : ∀ b l bt, (b, l) ∈ calls s → heap s !! b = Some bt →
    NoDup l ∧ l `prefix_of` b_ids bt ∧
    ∃ job, fc_f (fc s) = Some job ∧ job l = Returns (b_vals bt, b_err bt);
  (* a registered request owns the entry of its id, alone *)
  inv_registered : ∀ t g b,
    pool s !! t = Some g → registrant (g_pc g) = Some b →
    fc_m (fc s) !! g_id g = Some b;
  inv_reg_unique : ∀ t1 t2 g1 g2 b1 b2,
    pool s !! t1 = Some g1 → pool s !! t2 = Some g2 →
    registrant (g_pc g1) = Some b1 → registrant (g_pc g2) = Some b2 →
    g_id g1 = g_id g2 → t1 = t2;
  (* behind the barrier the counter is zero *)
  inv_past : ∀ t g b bt,
    pool s !! t = Some g → past_barrier (g_pc g) = Some b →
    heap s !! b = Some bt → b_wg bt = 0;
  (* [b.ids] has no repetition, lacks the ids still to be appended, and
     up to line 124 holds exactly the ids of the requests appended *)
  inv_nodup : ∀ b bt, heap s !! b = Some bt → NoDup (b_ids bt);
  inv_pending : ∀ t g b bt,
    pool s !! t = Some g → pending (g_pc g) = Some b →
    heap s !! b = Some bt → g_id g ∉ b_ids bt;
  inv_members : ∀ b bt x,
    heap s !! b = Some bt → b_wg bt = 1 →
    (x ∈ b_ids bt ↔
     ∃ t g, pool s !! t = Some g ∧ (appended (g_pc g) = Some b ∧ g_id g = x));
  (* a returned request read the outcome of its batch's call *)
  inv_return : ∀ t g b r,
    pool s !! t = Some g → g_pc g = PReturn b r →
    ∃ l job, (b, l) ∈ calls s ∧ fc_f (fc s) = Some job ∧
      r = Result (default INil ((answer_of (job l)).1 !! g_id g))
            (bool_decide (is_Some ((answer_of (job l)).1 !! g_id g)))
            (answer_of (job l)).2;
}.

(** ** Definitions used by the statements *)



(** What [Fetch] returns from a mapping [vals] delivered without error. *)
Definition found_in (vals : gmap string iface) (id : string) : result :=
  match vals !! id with
  | Some v => Result v true None
  | None => Result INil false None
  end.

(** The last statement of each of the three paths of [Fetch]. *)
Definition returning (p : pc) : option nat :=
  match p with
  | PWait b | PJClean b | POClean b => Some b
  | _ => None
  end.

(** The goroutine is on the path of lines 64-70: it holds the lock and
    finds its id registered, or it waits for the batch it found. *)
Definition on_registered_path (s : state) (g : goroutine) : Prop :=
  (g_pc g = PRoute ∧ is_Some (fc_m (fc s) !! g_id g)) ∨
  (∃ b, g_pc g = PWait b).

(** The state a schedule leads to (the state itself where it is stuck). *)
Definition after (s : state) (l : list action) : state := default s (run s l).

(** *** Jobs and schedules of the examples *)

(** The job of the specification's example: only ["a"] is found. *)
Definition job_abc : Job := job_of (λ _, ({["a" := IStr "ABC"]}, None)).

(** The job of [TestFetchErr]: a nil mapping and an error. *)
Definition job_err : Job := job_of (λ _, (∅, Some "error")).

(** A job that fails and still returns a mapping. *)
Definition job_both : Job :=
  job_of (λ _, ({["a" := IStr "ABC"]}, Some "error")).

(** A job that finds every identifier it is given, as in [TestFetchSingle]. *)
Definition job_all : Job :=
  job_of (λ ids, (list_to_map ((λ x, (x, IStr x)) <$> ids), None)).

Definition one_fetch (job : option Job) (maxBatch : Z) : state :=
  start job 100 maxBatch [CFetch "a"].

Definition two_fetches (job : Job) : state :=
  start (Some job) 100 10 [CFetch "a"; CFetch "b"].


(** One request: open, timer, seal, call, clean up. *)
Definition sched_one : list action :=
  [Run 0; Run 0; Expire 0; Run 0; Run 0; Run 0; Run 0; Run 0; Run 0; Run 0].

(** One request up to the call of the job. *)
Definition sched_to_the_call : list action :=
  [Run 0; Run 0; Expire 0; Run 0; Run 0; Run 0].

(** Two requests in one batch: the joiner appends, then the timer fires,
    the opener runs to its return, and the joiner up to its cleanup. *)
Definition sched_two_opener_done : list action :=
  [Run 0; Run 0; Run 1; Run 1; Run 1; Run 1; Run 1; Expire 0;
   Run 0; Run 0; Run 0; Run 0; Run 0; Run 0; Run 0; Run 1; Run 1].

Definition sched_two : list action := sched_two_opener_done ++ [Run 1].



(** The joiner registers (lines 73-77) and is then not scheduled. *)
Definition sched_registered : list action := [Run 0; Run 0; Run 1; Run 1].

(** The timer fires and the opener runs to its return; only then does the
    joiner execute lines 78-95. *)
Definition sched_late_joiner : list action :=
  [Expire 0; Run 0; Run 0; Run 0; Run 0; Run 0; Run 0; Run 0;
   Run 1; Run 1; Run 1; Run 1; Run 1; Run 1].

(** The joiner registers, the timer fires, the opener seals and calls the
    job. *)
Definition sched_sealed : list action :=
  [Run 0; Run 0; Run 1; Run 1; Expire 0; Run 0; Run 0; Run 0; Run 0].

(** The timer case is chosen (line 113), and before line 114 gets the lock
    [FetchNow] takes it and sends. *)
Definition sched_now_late : list action :=
  [Run 0; Run 0; Expire 0; Run 1; Run 1].

(** The joiner reaches [maxBatch], the timer case is chosen, and the joiner
    takes the lock of line 81 first. *)
Definition sched_size_vs_timer : list action :=
  [Run 0; Run 0; Run 1; Run 1; Run 1; Run 1; Expire 0; Run 1].

(** The joiner registers, the timer path closes the channel and detaches
    the batch, and the joiner then appends, reaches [maxBatch] and sends. *)
Definition sched_send_on_closed : list action :=
  [Run 0; Run 0; Run 1; Run 1; Expire 0; Run 0; Run 0; Run 0;
   Run 1; Run 1; Run 1; Run 1].

(** *** Locks, seal channel and completion barrier *)

(** The goroutine is inside a section guarded by [fc.mu]: after a [Lock]
    of its own (lines 61, 81, 90, 114, 127, 138), or, for the opener at
    lines 119-120, after it received the signal of a sender that holds the
    lock and leaves the [Unlock] to it. *)
Definition holds_fc (p : pc) : bool :=
  match p with
  | PRoute | PJSend _ | PTClose _ | PDetach _ | PJClean _ | POClean _
  | PNowCheck | PNowSend => true
  | _ => false
  end.

(** The goroutine is inside the critical section of [b.mu] (lines 78-84). *)
Definition holds_b (p : pc) : option nat :=
  match p with
  | PJAppend b | PJLockFc b | PJSend b | PJUnlockB b => Some b
  | _ => None
  end.

(** The opener before [close(b.csig)] of line 115. *)
Definition unsealed (p : pc) : option nat :=
  match p with
  | PSelect b | PTLock b | PTClose b => Some b
  | _ => None
  end.

(** The four statements at which a call can panic, with goroutine [t]
    about to execute it: the size signal of a joiner (line 82) on a channel
    that the timer case has closed; the [make] of line 102 with a
    [maxBatch] it rejects; line 154 with a nil job; line 154 with a job
    that panics. *)
Definition panic_site (s : state) (t : nat) (why : string) : Prop :=
  (∃ id b bt, pool s !! t = Some (Go id (PJSend b)) ∧
     heap s !! b = Some bt ∧ b_csig bt = true ∧
     why = "send on closed channel") ∨
  (∃ id, pool s !! t = Some (Go id PRoute) ∧
     fc_m (fc s) !! id = None ∧ fc_b (fc s) = None ∧
     makeslice_panics (fc_maxb (fc s)) = true ∧
     why = "makeslice: cap out of range") ∨
  (∃ id b, pool s !! t = Some (Go id (PDoFetch b)) ∧ fc_f (fc s) = None ∧
     why = "invalid memory address or nil pointer dereference") ∨
  (∃ id b bt job, pool s !! t = Some (Go id (PDoFetch b)) ∧
     heap s !! b = Some bt ∧ fc_f (fc s) = Some job ∧
     job (b_ids bt) = Panics why).

(** A program that has panicked has done so at one of them. *)
Definition expected_panic (s : state) (why : string) : Prop :=
  ∃ t, panic_site s t why.

(** A second invariant, on the synchronisation objects: who holds which
    mutex, the state of the seal channel, what keeps a barrier closed, who
    owns a registry entry, and how the program can fail. *)
Record disciplined (s : state) : Prop := {
  (* [fc.mu] is held exactly while one goroutine is in its section *)
  d_fc_held : ∀ t g,
    pool s !! t = Some g → holds_fc (g_pc g) = true → fc_mu (fc s) = true;
  d_fc_one : ∀ t1 t2 g1 g2,
    pool s !! t1 = Some g1 → pool s !! t2 = Some g2 →
    holds_fc (g_pc g1) = true → holds_fc (g_pc g2) = true → t1 = t2;
  d_fc_owner : fc_mu (fc s) = true →
    ∃ t g, pool s !! t = Some g ∧ holds_fc (g_pc g) = true;
  (* the same for [b.mu] *)
  d_b_held : ∀ t g b bt,
    pool s !! t = Some g → holds_b (g_pc g) = Some b →
    heap s !! b = Some bt → b_mu bt = true;
  d_b_one : ∀ t1 t2 g1 g2 b,
    pool s !! t1 = Some g1 → pool s !! t2 = Some g2 →
    holds_b (g_pc g1) = Some b → holds_b (g_pc g2) = Some b → t1 = t2;
  d_b_owner : ∀ b bt, heap s !! b = Some bt → b_mu bt = true →
    ∃ t g, pool s !! t = Some g ∧ holds_b (g_pc g) = Some b;
  (* the channel is open up to line 115; [FetchNow] sends with a batch in
     the slot; a slot whose channel is closed is about to be emptied *)
  d_open_channel : ∀ t g b bt,
    pool s !! t = Some g → unsealed (g_pc g) = Some b →
    heap s !! b = Some bt → b_csig bt = false;
  d_now : ∀ t g,
    pool s !! t = Some g → g_pc g = PNowSend → is_Some (fc_b (fc s));
  d_slot : ∀ b bt, fc_b (fc s) = Some b → heap s !! b = Some bt →
    b_csig bt = true → ∃ t g, pool s !! t = Some g ∧ g_pc g = PDetach b;
  (* [b.ids] is never empty and holds ids of callers only; so does the
     list of every job call *)
  d_nonempty : ∀ b bt, heap s !! b = Some bt → b_ids bt ≠ [];
  d_ids : ∀ b bt x,
    heap s !! b = Some bt → x ∈ b_ids bt → x ∈ g_id <$> pool s;
  d_calls_nonempty : ∀ b l, (b, l) ∈ calls s → l ≠ [];
  (* a closed barrier has its opener on the way to line 124 *)
  d_counter : ∀ b bt, heap s !! b = Some bt →
    b_wg bt = 0 ∨ ∃ t g, pool s !! t = Some g ∧ opener (g_pc g) = Some b;
  (* a registry entry has its registrant *)
  d_owned : ∀ x b, fc_m (fc s) !! x = Some b →
    ∃ t g, pool s !! t = Some g ∧ (registrant (g_pc g) = Some b ∧ g_id g = x);
  (* the program fails at one of the four sites only *)
  d_panic : ∀ why, st s = Panicked why → expected_panic s why;
}.

(** The goroutine is not inside a call: it has not started or has returned. *)
Definition at_rest (p : pc) : bool :=
  match p with
  | PFetch | PNow | PReturn _ _ | PNowReturn _ => true
  | _ => false
  end.

(** The program points of [Fetch] other than those of the size signal
    (lines 81-82). *)
Definition quiet (p : pc) : bool :=
  match p with
  | PJLockFc _ | PJSend _ | PNow | PNowCheck | PNowSend | PNowReturn _ => false
  | _ => true
  end.

(** *** Progress

    The number of statements a goroutine has still to execute, at most:
    neither [Fetch] nor [FetchNow] has a loop. *)
Definition rank (p : pc) : nat :=
  match p with
  | PFetch => 10
  | PRoute => 9
  | PWait _ => 1
  | PJLockB _ => 8
  | PJAppend _ => 7
  | PJLockFc _ => 6
  | PJSend _ => 5
  | PJUnlockB _ => 4
  | PJWait _ => 3
  | PJCleanLock _ => 2
  | PJClean _ => 1
  | PSelect _ => 8
  | PTLock _ => 7
  | PTClose _ => 6
  | PDetach _ => 5
  | PDoFetch _ => 4
  | PWgDone _ => 3
  | POCleanLock _ => 2
  | POClean _ => 1
  | PReturn _ _ => 0
  | PNow => 3
  | PNowCheck => 2
  | PNowSend => 1
  | PNowReturn _ => 0
  end.

(** What is left for the whole program to do; the last unit is spent by a
    panic. *)
Definition fuel (s : state) : nat :=
  sum_list_with (λ g, rank (g_pc g)) (pool s) +
  match st s with Running => 1 | Panicked _ => 0 end.

(** The call has returned. *)
Definition returned (p : pc) : bool :=
  match p with
  | PReturn _ _ | PNowReturn _ => true
  | _ => false
  end.

(** *** More examples

    Two requests for the same id. *)
Definition same_id_twice : state :=
  start (Some job_abc) 100 10 [CFetch "a"; CFetch "a"].

(** The first opens the batch, the second finds the id registered. *)
Definition sched_same_id_routed : list action := [Run 0; Run 0; Run 1].

(** ... and waits; the timer fires, the opener serves the batch and
    returns, and the second request reads the batch. *)
Definition sched_same_id : list action :=
  sched_same_id_routed ++
  [Run 1; Expire 0; Run 0; Run 0; Run 0; Run 0; Run 0; Run 0; Run 0; Run 1].


(** [FetchNow] alone, as in [TestFetchNowNoQueue]. *)
Definition now_alone : state :=
  start (Some job_all) 5000 1000 [CFetchNow].


(** Two requests and a [FetchNow], with [maxBatch = 2]: the second request
    registers; [FetchNow] seals the batch; the second request appends and
    finds the batch full; the opener detaches the batch, the second
    request takes [fc.mu] (line 81), and the opener calls the job and
    releases the barrier. *)
Definition sched_sealed_then_full : list action :=
  [Run 0; Run 0; Run 1; Run 1; Run 2; Run 2; Run 2; Run 1; Run 1;
   Run 0; Run 1; Run 0; Run 0].

(** ** Proof tools *)

Lemma makeslice_panics_spec n :
  makeslice_panics n = true ↔ (n < 0)%Z ∨ (2 ^ 44 < n)%Z.
Proof.
  unfold makeslice_panics, maxAlloc.
  rewrite orb_true_iff, Z.ltb_lt, Z.ltb_lt. lia.
Qed.

Lemma receiver_Some b l r g :
  receiver b l = Some (r, g) → l !! r = Some g ∧ g_pc g = PSelect b.
Proof. unfold receiver. by intros (? & ? & _)%list_find_Some. Qed.

(** Case analysis on a transition [H : step s a = Some s']: one goal for
    each statement and each outcome of its tests, with [s'] replaced by
    the state the statement produces. *)
Ltac step_split H :=
  repeat first
    [ discriminate H
    | match type of H with
      | context [fc_m (fc ?s) !! ?x] =>
          lazymatch goal with
          | _ : fc_m (fc s) !! x = _ |- _ => fail
          | _ => destruct (fc_m (fc s) !! x) as [?b|] eqn:?Hm; simpl in H
          end
      | context [match fc_b (fc ?s) with _ => _ end] =>
          destruct (fc_b (fc s)) as [?b|] eqn:?Hopen; simpl in H
      | context [heap ?s !! ?b] =>
          lazymatch goal with
          | _ : heap s !! b = _ |- _ => fail
          | _ => destruct (heap s !! b) as [?bt|] eqn:?Hb; simpl in H
          end
      | context [receiver ?b ?l] =>
          lazymatch goal with
          | _ : receiver b l = _ |- _ => fail
          | _ => destruct (receiver b l) as [[?r ?g]|] eqn:?Hr; simpl in H
          end
      end
    | match type of H with
      | context [if ?c then _ else _] => destruct c eqn:?; simpl in H
      | context [match ?c with _ => _ end] => destruct c eqn:?; simpl in H
      end ].

Ltac step_inv H :=
  unfold step in H;
  (destruct (st _) eqn:Hst; [|done]);
  match type of H with
  | match ?a with _ => _ end = _ => destruct a as [?t|?t]
  end; simpl in H;
  (destruct (pool _ !! _) as [[?id ?p]|] eqn:Hg; simpl in H; [|done]);
  destruct p; simpl in H; unfold send, lock_fc in H; simpl in H;
  step_split H; simplify_eq;
  try match goal with
  | Hr : receiver _ _ = Some (?r, ?g) |- _ =>
      apply receiver_Some in Hr; destruct Hr as [Hr ?Hrpc];
      destruct g as [?idr ?pr]; simpl in *; subst;
      match type of Hg with
      | _ !! ?t = _ => assert (r ≠ t) as Hrt by (intros ->; simplify_eq)
      end
  end.

(** Lookups in an updated pool, heap or registry, split into the updated
    position and the others. *)
Ltac look_inv :=
  repeat match goal with
  | H : <[_ := _]> _ !! _ = Some _ |- _ =>
      first [ apply list_lookup_insert_Some in H;
              destruct H as [(? & ? & ?)|(? & ?)]
            | apply lookup_insert_Some in H;
              destruct H as [(? & ?)|(? & ?)] ]
  | H : delete _ _ !! _ = Some _ |- _ =>
      apply lookup_delete_Some in H; destruct H as [? ?]
  | H : (_ ++ [_]) !! _ = Some _ |- _ =>
      apply lookup_snoc_Some in H; destruct H as [(? & ?)|(? & ?)]
  | H : receiver _ _ = Some _ |- _ =>
      apply receiver_Some in H; destruct H as [? ?]
  end; simplify_eq/=.

Lemma pool_ex_jump (P : goroutine → Prop) (l : list goroutine) t g g' :
  l !! t = Some g → (P g → P g') →
  (∃ t0 g0, l !! t0 = Some g0 ∧ P g0) →
  ∃ t0 g0, <[t := g']> l !! t0 = Some g0 ∧ P g0.
Proof.
  intros Ht HP (t0 & g0 & H0 & HP0). destruct (decide (t0 = t)) as [->|Hne].
  - exists t, g'. simplify_eq. split; [|by auto].
    apply list_lookup_insert_eq. by eapply lookup_lt_Some.
  - exists t0, g0. by rewrite list_lookup_insert_ne.
Qed.


Lemma open_ptr s b : inv s → fc_b (fc s) = Some b → b < length (heap s).
Proof.
  intros I (t & g & Hl & Ho)%(inv_open s I).
  eapply (inv_ptr s I); [done|]. by destruct (g_pc g).
Qed.

Lemma opener_served p b : opener p = Some b → served_by p = Some b.
Proof. destruct p; naive_solver. Qed.
Lemma before_call_opener p b : before_call p = Some b → opener p = Some b.
Proof. destruct p; naive_solver. Qed.
Lemma opening_before_call p b : opening p = Some b → before_call p = Some b.
Proof. destruct p; naive_solver. Qed.
Lemma registrant_served p b : registrant p = Some b → served_by p = Some b.
Proof. destruct p; naive_solver. Qed.
Lemma opener_registrant p b : opener p = Some b → registrant p = Some b.
Proof. destruct p; naive_solver. Qed.
Lemma pending_registrant p b : pending p = Some b → registrant p = Some b.
Proof. destruct p; naive_solver. Qed.
Lemma appended_registrant p b : appended p = Some b → registrant p = Some b.
Proof. destruct p; naive_solver. Qed.
Lemma past_barrier_registrant p b : past_barrier p = Some b → registrant p = Some b.
Proof. destruct p; naive_solver. Qed.
Lemma opener_appended p b : opener p = Some b → appended p = Some b.
Proof. destruct p; naive_solver. Qed.

(** No goroutine, entry or record points to the next free address. *)
Ltac ptr_absurd I :=
  exfalso;
  match goal with
  | Hl : pool ?s !! _ = Some ?g, Hc : _ (g_pc ?g) = Some (length (heap ?s)) |- _ =>
      apply (Nat.lt_irrefl (length (heap s)));
      apply (inv_ptr s I _ g _ Hl);
      clear -Hc; destruct (g_pc g); naive_solver
  | Hl : fc_m (fc ?s) !! _ = Some (length (heap ?s)) |- _ =>
      apply (Nat.lt_irrefl (length (heap s)));
      apply (inv_reg_ptr s I _ _ Hl)
  | Hl : (length (heap ?s), _) ∈ calls ?s |- _ =>
      apply (Nat.lt_irrefl (length (heap s)));
      apply (inv_calls_ptr s I _ _ Hl)
  end.

(** Two goroutines cannot both be the opener of a batch. *)
Ltac opener_absurd I :=
  exfalso;
  match goal with
  | Hne : ?t ≠ ?t1 |- _ =>
      apply Hne; eapply (inv_opener _ I); [eassumption|eassumption|..];
      first [ done | by apply before_call_opener
            | by apply before_call_opener, opening_before_call ]
  end.

Lemma pool_ex_jump_iff (P : goroutine → Prop) (l : list goroutine) t g g' :
  l !! t = Some g → (P g ↔ P g') →
  ((∃ t0 g0, <[t := g']> l !! t0 = Some g0 ∧ P g0) ↔
   (∃ t0 g0, l !! t0 = Some g0 ∧ P g0)).
Proof.
  intros Ht HP. split.
  - intros (t0 & g0 & H0 & HP0).
    apply list_lookup_insert_Some in H0 as [(-> & <- & _)|(? & ?)].
    + exists t0, g. by rewrite HP.
    + by exists t0, g0.
  - apply pool_ex_jump with g; [done|]. by rewrite HP.
Qed.

Lemma NoDup_snoc_fresh {A} (l : list A) x : x ∉ l → NoDup l → NoDup (l ++ [x]).
Proof.
  intros Hx Hl. apply NoDup_app. split_and!; [done| |apply NoDup_singleton].
  intros y Hy ->%list_elem_of_singleton. done.
Qed.

(** ** Every statement preserves the invariant *)

Lemma step_ptr s a s' : inv s → step s a = Some s' →
  ∀ t g b, pool s' !! t = Some g → served_by (g_pc g) = Some b → b < length (heap s').
Proof.
  intros I H. step_inv H; simpl; intros t' g' b' Hl Hs;
  rewrite ?length_insert, ?length_app; simpl; look_inv;
  try (by eapply (inv_ptr s I)).
  all: try (eapply Nat.lt_lt_add_r; by eapply (inv_ptr s I)).
  all: try (by eapply lookup_lt_Some).
  all: try (by eapply (inv_reg_ptr s I)).
  all: try (by eapply open_ptr).
  lia.
Qed.

Lemma step_reg_ptr s a s' : inv s → step s a = Some s' →
  ∀ x b, fc_m (fc s') !! x = Some b → b < length (heap s').
Proof.
  intros I H. step_inv H; simpl; intros x' b' Hl;
  rewrite ?length_insert, ?length_app; simpl; look_inv;
  try (by eapply (inv_reg_ptr s I)).
  all: try (eapply Nat.lt_lt_add_r; by eapply (inv_reg_ptr s I)).
  all: try (by eapply open_ptr).
  lia.
Qed.

Lemma step_calls_ptr s a s' : inv s → step s a = Some s' →
  ∀ b l, (b, l) ∈ calls s' → b < length (heap s').
Proof.
  intros I H. step_inv H; simpl; intros b' l' Hl;
  rewrite ?length_insert, ?length_app; simpl;
  try (by eapply (inv_calls_ptr s I)).
  - eapply Nat.lt_lt_add_r; by eapply (inv_calls_ptr s I).
  - apply elem_of_cons in Hl as [?|?]; simplify_eq.
    + by eapply lookup_lt_Some.
    + by eapply (inv_calls_ptr s I).
Qed.

(** A goroutine with a given property is still there after a jump that
    keeps the property. *)
Ltac ex_jump :=
  repeat (eapply pool_ex_jump;
          [ first [done | by rewrite list_lookup_insert_ne by congruence]
          | simpl; try done; try congruence | ]).

Lemma step_open s a s' : inv s → step s a = Some s' →
  ∀ b, fc_b (fc s') = Some b →
    ∃ t g, pool s' !! t = Some g ∧ opening (g_pc g) = Some b.
Proof.
  intros I H. step_inv H; simpl; intros b' Hl; simplify_eq;
  try (by eapply (inv_open s I)).
  all: try (by ex_jump; eapply (inv_open s I)).
  exists t; eexists; split; [apply list_lookup_insert_eq; by eapply lookup_lt_Some|done].
Qed.

Lemma step_opener s a s' : inv s → step s a = Some s' →
  ∀ t1 t2 g1 g2 b,
    pool s' !! t1 = Some g1 → pool s' !! t2 = Some g2 →
    opener (g_pc g1) = Some b → opener (g_pc g2) = Some b → t1 = t2.
Proof.
  intros I H. step_inv H; simpl; intros t1 t2 g1 g2 b' H1 H2 Ho1 Ho2;
  look_inv; try done;
  try (by eapply (inv_opener s I)).
  all: ptr_absurd I.
Qed.

Lemma step_before s a s' : inv s → step s a = Some s' →
  ∀ t g b l,
    pool s' !! t = Some g → before_call (g_pc g) = Some b → (b, l) ∉ calls s'.
Proof.
  intros I H. step_inv H; simpl; intros t1 g1 b1 l1 H1 Ho1;
  look_inv; try done;
  try (by eapply (inv_before s I)).
  - intros ?. ptr_absurd I.
  - intros [?|?]%elem_of_cons; simplify_eq.
    + apply before_call_opener in Ho1.
      by eapply H, (inv_opener s I).
    + by eapply (inv_before s I).
Qed.

Lemma step_after s a s' : inv s → step s a = Some s' →
  ∀ t g b, pool s' !! t = Some g → g_pc g = PWgDone b → ∃ l, (b, l) ∈ calls s'.
Proof.
  intros I H. step_inv H; simpl; intros t1 g1 b1 H1 Ho1;
  look_inv; try done;
  try (by eapply (inv_after s I)).
  - eexists. by left.
  - edestruct (inv_after s I) as [l ?]; [done..|]. exists l. by right.
Qed.

Lemma step_counter s a s' : inv s → step s a = Some s' →
  ∀ t g b bt,
    pool s' !! t = Some g → opener (g_pc g) = Some b →
    heap s' !! b = Some bt → b_wg bt = 1.
Proof.
  intros I H. step_inv H; simpl; intros t1 g1 b1 bt1 H1 Ho1 Hh1;
  look_inv; try done;
  try (by eapply (inv_counter s I)).
  all: try lia.
  all: try (by ptr_absurd I).
  opener_absurd I.
Qed.

Lemma step_released s a s' : inv s → step s a = Some s' →
  ∀ b bt, heap s' !! b = Some bt → b_wg bt = 0 → ∃ l, (b, l) ∈ calls s'.
Proof.
  intros I H. step_inv H; simpl; intros b1 bt1 H1 Ho1;
  look_inv; try done;
  try (by eapply (inv_released s I)).
  - eexists; by left.
  - edestruct (inv_released s I) as [l ?]; [done..|]. exists l. by right.
  - by eapply (inv_after s I).
Qed.

Lemma not_called s t g b :
  inv s → pool s !! t = Some g → before_call (g_pc g) = Some b →
  b ∉ (calls s).*1.
Proof.
  intros I Hl Hb ([b' l] & ? & ?)%list_elem_of_fmap; simplify_eq/=.
  by eapply (inv_before s I).
Qed.

Lemma step_calls_nodup s a s' :
  inv s → step s a = Some s' → NoDup ((calls s').*1).
Proof.
  intros I H. step_inv H; simpl;
  try (by eapply (inv_calls_nodup s I)).
  apply NoDup_cons. split; [|by eapply (inv_calls_nodup s I)].
  by eapply not_called.
Qed.

Lemma step_config s a s' : step s a = Some s' →
  fc_f (fc s') = fc_f (fc s) ∧ fc_maxb (fc s') = fc_maxb (fc s) ∧
  fc_maxw (fc s') = fc_maxw (fc s).
Proof. intros H. by step_inv H. Qed.

Lemma step_calls s a s' : inv s → step s a = Some s' →
  ∀ b l bt, (b, l) ∈ calls s' → heap s' !! b = Some bt →
    NoDup l ∧ l `prefix_of` b_ids bt ∧
    ∃ job, fc_f (fc s') = Some job ∧ job l = Returns (b_vals bt, b_err bt).
Proof.
  intros I H. step_inv H; simpl; intros b1 l1 bt1 H1 H2;
  look_inv; try done;
  try (by eapply (inv_calls s I)).
  - ptr_absurd I.
  - edestruct (inv_calls s I) as (? & ? & ?); [done..|].
    split_and!; [done| by apply prefix_app_r | done].
  - edestruct (inv_calls s I) as (? & ? & ?); [done..|].
    split_and!; [done| by apply prefix_app_r | done].
  - apply elem_of_cons in H1 as [?|?]; simplify_eq.
    + split_and!; [by eapply (inv_nodup s I) | done |].
      eexists; split; [done|]. by destruct r.
    + exfalso. eapply (inv_before s I); [done| |done]. done.
  - apply elem_of_cons in H1 as [?|?]; simplify_eq.
    by eapply (inv_calls s I).
Qed.

Lemma step_registered s a s' : inv s → step s a = Some s' →
  ∀ t g b,
    pool s' !! t = Some g → registrant (g_pc g) = Some b →
    fc_m (fc s') !! g_id g = Some b.
Proof.
  intros I H. step_inv H; simpl; intros t1 g1 b1 H1 H2;
  look_inv; try done;
  try (by eapply (inv_registered s I _ (Go _ _))).
  all: try (by eapply (inv_registered s I)).
  all: try (by apply lookup_insert_eq).
  all: try (rewrite lookup_insert_ne;
            [by eapply (inv_registered s I)|];
            intros ->; by erewrite (inv_registered s I) in Hm).
  all: rewrite lookup_delete_ne; [by eapply (inv_registered s I)|];
    intros Heq; match goal with Hne : _ ≠ _ |- _ => apply Hne end;
    by eapply (inv_reg_unique s I _ _ (Go _ _)).
Qed.

Lemma step_reg_unique s a s' : inv s → step s a = Some s' →
  ∀ t1 t2 g1 g2 b1 b2,
    pool s' !! t1 = Some g1 → pool s' !! t2 = Some g2 →
    registrant (g_pc g1) = Some b1 → registrant (g_pc g2) = Some b2 →
    g_id g1 = g_id g2 → t1 = t2.
Proof.
  intros I H. step_inv H; simpl; intros t1 t2 g1 g2 b1 b2 H1 H2 Hr1 Hr2 Hid;
  look_inv; try done;
  try (by eapply (inv_reg_unique s I)).
  all: try (by eapply (inv_reg_unique s I _ _ (Go _ _) _); [done..|]).
  all: try (by eapply (inv_reg_unique s I _ _ _ (Go _ _)); [done..|]).
  all: by erewrite (inv_registered s I) in Hm.
Qed.

Lemma step_past s a s' : inv s → step s a = Some s' →
  ∀ t g b bt,
    pool s' !! t = Some g → past_barrier (g_pc g) = Some b →
    heap s' !! b = Some bt → b_wg bt = 0.
Proof.
  intros I H. step_inv H; simpl; intros t1 g1 b1 bt1 H1 H2 H3;
  look_inv; try done;
  try (by eapply (inv_past s I)).
  all: try (by ptr_absurd I).
  - assert (b_wg bt = 1) by (by eapply (inv_counter s I _ (Go _ _))). lia.
  - assert (b_wg bt = 0) by (by eapply (inv_past s I)). lia.
Qed.

Lemma step_nodup s a s' : inv s → step s a = Some s' →
  ∀ b bt, heap s' !! b = Some bt → NoDup (b_ids bt).
Proof.
  intros I H. step_inv H; simpl; intros b1 bt1 H1;
  look_inv; try done;
  try (by eapply (inv_nodup s I)).
  - apply NoDup_singleton.
  - apply NoDup_snoc_fresh; [|by eapply (inv_nodup s I)].
    by eapply (inv_pending s I _ (Go _ _)).
  - apply NoDup_snoc_fresh; [|by eapply (inv_nodup s I)].
    by eapply (inv_pending s I _ (Go _ _)).
Qed.

Lemma open_fresh s b bt x :
  inv s → fc_b (fc s) = Some b → heap s !! b = Some bt →
  fc_m (fc s) !! x = None → x ∉ b_ids bt.
Proof.
  intros I Ho Hb Hm Hx.
  destruct (inv_open s I _ Ho) as (t & g & Hl & Hop).
  assert (b_wg bt = 1) as Hwg.
  { eapply (inv_counter s I); [done| |done].
    by apply before_call_opener, opening_before_call. }
  apply (inv_members s I _ _ x Hb Hwg) in Hx as (t' & g' & Hl' & Ha & <-).
  apply appended_registrant in Ha.
  by rewrite (inv_registered s I _ _ _ Hl' Ha) in Hm.
Qed.

Lemma step_pending s a s' : inv s → step s a = Some s' →
  ∀ t g b bt,
    pool s' !! t = Some g → pending (g_pc g) = Some b →
    heap s' !! b = Some bt → g_id g ∉ b_ids bt.
Proof.
  intros I H. step_inv H; simpl; intros t1 g1 b1 bt1 H1 H2 H3;
  look_inv; try done;
  try (by eapply (inv_pending s I)).
  all: try (by ptr_absurd I).
  all: try (by eapply open_fresh).
  - by eapply (inv_pending s I _ (Go _ _)).
  - apply not_elem_of_app; split; [by eapply (inv_pending s I)|].
    intros Heq%list_elem_of_singleton.
    match goal with Hne : _ ≠ _ |- _ => apply Hne end.
    eapply (inv_reg_unique s I); [exact Hg|eassumption|done| |done].
    by apply pending_registrant.
  - apply not_elem_of_app; split; [by eapply (inv_pending s I)|].
    intros Heq%list_elem_of_singleton.
    match goal with Hne : _ ≠ _ |- _ => apply Hne end.
    eapply (inv_reg_unique s I); [exact Hg|eassumption|done| |done].
    by apply pending_registrant.
Qed.

Lemma read_released s b bt id :
  inv s → heap s !! b = Some bt → b_wg bt = 0 →
  ∃ l job, (b, l) ∈ calls s ∧ fc_f (fc s) = Some job ∧
    read bt id = Result (default INil ((answer_of (job l)).1 !! id))
                   (bool_decide (is_Some ((answer_of (job l)).1 !! id)))
                   (answer_of (job l)).2.
Proof.
  intros I Hb Hw. destruct (inv_released s I _ _ Hb Hw) as [l Hl].
  destruct (inv_calls s I _ _ _ Hl Hb) as (_ & _ & job & Hf & Hj).
  exists l, job. split_and!; [done..|]. by rewrite Hj.
Qed.

Lemma step_return s a s' : inv s → step s a = Some s' →
  ∀ t g b r,
    pool s' !! t = Some g → g_pc g = PReturn b r →
    ∃ l job, (b, l) ∈ calls s' ∧ fc_f (fc s') = Some job ∧
      r = Result (default INil ((answer_of (job l)).1 !! g_id g))
            (bool_decide (is_Some ((answer_of (job l)).1 !! g_id g)))
            (answer_of (job l)).2.
Proof.
  intros I H. step_inv H; simpl; intros t1 g1 b1 r1 H1 H2;
  look_inv; try done;
  try (by eapply (inv_return s I)).
  - by apply read_released.
  - apply read_released; [done..|]. by eapply (inv_past s I _ (Go _ _)).
  - edestruct (inv_return s I) as (l & job & ? & ? & ?); [done..|].
    exists l, job. split_and!; [by right|done..].
  - apply read_released; [done..|]. by eapply (inv_past s I _ (Go _ _)).
Qed.

Ltac members_side :=
  simpl; split; intros [? ?]; simplify_eq/=; try done; try lia.

Ltac members_old I :=
  match goal with
  | Hh : heap ?s !! ?b = Some ?bt, Hw : b_wg ?bt = 1
    |- (_ ∈ b_ids ?bt ↔ _) => rewrite (inv_members s I b bt _ Hh Hw)
  end.

Ltac members_jump :=
  symmetry;
  first
    [ eapply pool_ex_jump_iff; [done|members_side]
    | etrans;
      [ eapply pool_ex_jump_iff;
        [by rewrite list_lookup_insert_ne by congruence|members_side]
      | eapply pool_ex_jump_iff; [done|members_side] ] ].

Lemma step_members s a s' : inv s → step s a = Some s' →
  ∀ b bt x,
    heap s' !! b = Some bt → b_wg bt = 1 →
    (x ∈ b_ids bt ↔
     ∃ t g, pool s' !! t = Some g ∧ (appended (g_pc g) = Some b ∧ g_id g = x)).
Proof.
  intros I H. step_inv H; simpl; intros b1 bt1 x H1 H2;
  look_inv; try done;
  try (by eapply (inv_members s I)).
  all: try (members_old I; members_jump; fail).
  - rewrite list_elem_of_singleton. split.
    + intros ->. exists t. eexists.
      split; [apply list_lookup_insert_eq; by eapply lookup_lt_Some|done].
    + intros (t0 & g0 & Hl & Ha & <-). look_inv; [done|]. ptr_absurd I.
  - rewrite elem_of_app, list_elem_of_singleton.
    rewrite (inv_members s I b1 bt x) by done. split.
    + intros [(t0 & g0 & Hl & Ha & <-)| ->].
      * exists t0, g0. split; [|by simpl]. rewrite list_lookup_insert_ne; [done|].
        intros ->. simplify_eq.
      * exists t. eexists.
        split; [apply list_lookup_insert_eq; by eapply lookup_lt_Some|done].
    + intros (t0 & g0 & Hl & Ha & <-). look_inv; [by right|].
      left. by exists t0, g0.
  - rewrite elem_of_app, list_elem_of_singleton.
    rewrite (inv_members s I b1 bt x) by done. split.
    + intros [(t0 & g0 & Hl & Ha & <-)| ->].
      * exists t0, g0. split; [|by simpl]. rewrite list_lookup_insert_ne; [done|].
        intros ->. simplify_eq.
      * exists t. eexists.
        split; [apply list_lookup_insert_eq; by eapply lookup_lt_Some|done].
    + intros (t0 & g0 & Hl & Ha & <-). look_inv; [by right|].
      left. by exists t0, g0.
  - assert (b_wg bt = 1) by (by eapply (inv_counter s I _ (Go _ _))). lia.
Qed.

Lemma step_live s a s' : inv s → step s a = Some s' →
  ∀ b bt, heap s' !! b = Some bt →
    (∃ l, (b, l) ∈ calls s') ∨
    (∃ t g, pool s' !! t = Some g ∧ before_call (g_pc g) = Some b).
Proof.
  intros I H. step_inv H; simpl; intros b1 bt1 H1;
  look_inv; try done;
  try (by eapply (inv_live s I)).
  all: try (by left; eexists; left).
  all: try (edestruct (inv_live s I) as [[l ?]|?]; [done|left|right];
            [ try (by exists l); by (exists l; right)
            | by ex_jump ]; fail).
  right. exists t. eexists.
  split; [apply list_lookup_insert_eq; by eapply lookup_lt_Some|done].
Qed.

Lemma step_caller s a s' : inv s → step s a = Some s' →
  ∀ b l, (b, l) ∈ calls s' →
    ∃ t g, pool s' !! t = Some g ∧ called_by (g_pc g) = Some b.
Proof.
  intros I H. step_inv H; simpl; intros b1 l1 H1;
  try (by eapply (inv_caller s I)).
  all: try (by ex_jump; eapply (inv_caller s I)).
  apply elem_of_cons in H1 as [?|?]; simplify_eq.
  - exists t. eexists.
    split; [apply list_lookup_insert_eq; by eapply lookup_lt_Some|done].
  - by ex_jump; eapply (inv_caller s I).
Qed.

Lemma inv_step s a s' : inv s → step s a = Some s' → inv s'.
Proof.
  intros I H. split.
  - by eapply step_ptr.
  - by eapply step_reg_ptr.
  - by eapply step_calls_ptr.
  - by eapply step_open.
  - by eapply step_opener.
  - by eapply step_before.
  - by eapply step_after.
  - by eapply step_counter.
  - by eapply step_live.
  - by eapply step_caller.
  - by eapply step_released.
  - by eapply step_calls_nodup.
  - by eapply step_calls.
  - by eapply step_registered.
  - by eapply step_reg_unique.
  - by eapply step_past.
  - by eapply step_nodup.
  - by eapply step_pending.
  - by eapply step_members.
  - by eapply step_return.
Qed.

Lemma spawn_pc c : g_pc (spawn c) = PFetch ∨ g_pc (spawn c) = PNow.
Proof. destruct c; auto. Qed.

Lemma inv_boot f cs : fc_m f = ∅ → fc_b f = None → inv (boot f cs).
Proof.
  intros Hm Hb.
  assert (∀ t g, (spawn <$> cs) !! t = Some g → g_pc g = PFetch ∨ g_pc g = PNow) as Hp.
  { intros t g (c & -> & _)%list_lookup_fmap_Some. apply spawn_pc. }
  split; simpl; try rewrite Hm; try rewrite Hb; try done.
  all: try (intros; match goal with Hl : _ !! _ = Some ?g |- _ =>
         destruct (Hp _ _ Hl) as [Hpc|Hpc]; rewrite Hpc in *; done end).
  all: try (intros ??; by rewrite ?elem_of_nil, ?lookup_empty).
  all: try (intros ???; by rewrite ?elem_of_nil, ?lookup_empty).
  apply NoDup_nil_2.
Qed.

(** ** Reachable states *)

Lemma reachable_inv s0 s : inv s0 → reachable s0 s → inv s.
Proof. intros I0. induction 1; [done|]. by eapply inv_step. Qed.

Lemma reachable_trans s0 s1 s2 :
  reachable s0 s1 → reachable s1 s2 → reachable s0 s2.
Proof. intros H1. induction 1; [done|]. by eapply reach_step. Qed.

Lemma run_reachable s l s' : run s l = Some s' → reachable s s'.
Proof.
  revert s. induction l as [|a l IH]; simpl; intros s H.
  - simplify_eq. constructor.
  - destruct (step s a) as [s1|] eqn:Hs; [|done]. simpl in H.
    eapply reachable_trans; [|by apply IH].
    eapply reach_step; [constructor|done].
Qed.

Lemma step_ids s a s' :
  step s a = Some s' → g_id <$> pool s' = g_id <$> pool s.
Proof.
  intros H. step_inv H; simpl; try done;
  rewrite ?list_fmap_insert; simpl;
  repeat (rewrite list_insert_id;
    [|by rewrite ?list_lookup_insert_ne, list_lookup_fmap, ?Hg, ?Hr by done]);
  done.
Qed.

Lemma reachable_ids s0 s :
  reachable s0 s → g_id <$> pool s = g_id <$> pool s0.
Proof.
  induction 1 as [|s a s' _ IH Hs]; [done|]. by rewrite (step_ids _ _ _ Hs).
Qed.

Lemma start_inv job w mb cs s : reachable (start job w mb cs) s → inv s.
Proof. by apply reachable_inv, inv_boot. Qed.

Lemma start_config job w mb cs s :
  reachable (start job w mb cs) s →
  fc_f (fc s) = job ∧ fc_maxb (fc s) = mb ∧ fc_maxw (fc s) = w.
Proof.
  induction 1 as [|s a s' _ IH Hs]; [done|].
  by destruct (step_config _ _ _ Hs) as (-> & -> & ->).
Qed.

Lemma start_job job w mb cs s :
  reachable (start job w mb cs) s → fc_f (fc s) = job.
Proof. by intros (? & _)%start_config. Qed.

Lemma start_ids job w mb xs :
  g_id <$> pool (start job w mb (CFetch <$> xs)) = xs.
Proof.
  simpl. rewrite <-!list_fmap_compose.
  rewrite <-(list_fmap_id xs) at 2. by apply list_fmap_ext.
Qed.

Lemma calls_once s b l1 l2 :
  inv s → (b, l1) ∈ calls s → (b, l2) ∈ calls s → l1 = l2.
Proof.
  intros I H1 H2. pose proof (inv_calls_nodup s I) as Hn.
  apply list_elem_of_lookup in H1 as [i1 H1], H2 as [i2 H2].
  assert (i1 = i2); [|by simplify_eq].
  eapply NoDup_lookup; [done|..]; by rewrite list_lookup_fmap, ?H1, ?H2.
Qed.

(** ** The job and its batch

    What the code guarantees about job invocations, in every interleaving:
    no batch is served twice, every batch has been served once or still has
    its opener on the way to line 123, the list passed is [b.ids] as it is at
    that moment, without repetition, and it holds the id of exactly those
    requests that have executed their append by then.  When all requests
    are appended while the opener is still in its select, one call with
    exactly their ids serves them all. *)




Lemma calls_at_most_one s b l :
  NoDup ((calls s).*1) → (∀ e, e ∈ calls s → e = (b, l)) →
  calls s = [] ∨ calls s = [(b, l)].
Proof.
  destruct (calls s) as [|e1 [|e2 c]]; simpl; intros Hn He; auto.
  - right. f_equal. apply He. by left.
  - exfalso. rewrite (He e1), (He e2) in Hn by (by repeat constructor).
    simpl in Hn. apply NoDup_cons in Hn as [Hn _]. apply Hn. by left.
Qed.



(** Claim C1 (the job is invoked exactly once per batch, with exactly the
    distinct identifiers of the batch; N < maxBatchSize requests submitted
    within the window are served by one call with exactly those N ids): the
    code breaks it.  With maxBatch = 10, [Fetch("a")] opens a batch and
    [Fetch("b")] is submitted while the opener waits in its select: it has
    taken the routing decision and is registered to the batch (lines 73-77).
    If it is not scheduled again before the timer fires, the opener seals
    the batch and calls the job with ["a"] alone; the joiner appends "b"
    afterwards (line 79), so that the batch holds ["a"; "b"] while the only
    call of the job received ["a"], and [Fetch("b")] returns not-found from a
    job that finds every id it is given. *)
Lemma job_misses_a_request_of_its_window :
  let s0 := two_fetches job_all in
  let s1 := after s0 sched_registered in
  let s2 := after s1 sched_late_joiner in
  run s0 sched_registered = Some s1 ∧
  pool s1 = [Go "a" (PSelect 0); Go "b" (PJLockB 0)] ∧
  fc_m (fc s1) !! "b" = Some 0 ∧ fc_maxb (fc s1) = 10%Z ∧
  run s1 sched_late_joiner = Some s2 ∧
  calls s2 = [(0, ["a"])] ∧
  b_ids <$> heap s2 = [["a"; "b"]] ∧
  pool s2 = [Go "a" (PReturn 0 (Result (IStr "a") true None));
             Go "b" (PReturn 0 (Result INil false None))] ∧
  (answer_of (job_all ["a"; "b"])).1 !! "b" = Some (IStr "b").
Proof. intros s0 s1 s2. split_and!; vm_compute; reflexivity. Qed.

(** ** What Fetch returns *)

Lemma returned_reads job w mb cs s t g b r l :
  reachable (start (Some job) w mb cs) s →
  pool s !! t = Some g → g_pc g = PReturn b r → (b, l) ∈ calls s →
  ∃ vals err, job l = Returns (vals, err) ∧
    r = Result (default INil (vals !! g_id g))
          (bool_decide (is_Some (vals !! g_id g))) err.
Proof.
  intros Hr Hl Hpc Hc. pose proof (start_inv _ _ _ _ _ Hr) as I.
  destruct (inv_return s I _ _ _ _ Hl Hpc) as (l' & job' & Hc' & Hf & ->).
  rewrite (start_job _ _ _ _ _ Hr) in Hf. simplify_eq.
  rewrite <-(calls_once s b l l' I Hc Hc').
  destruct (lookup_lt_is_Some_2 (heap s) b) as [bt Hbt].
  { by eapply (inv_calls_ptr s I). }
  destruct (inv_calls s I _ _ _ Hc Hbt) as (_ & _ & job2 & Hf & Hj).
  rewrite (start_job _ _ _ _ _ Hr) in Hf. simplify_eq.
  exists (b_vals bt), (b_err bt). by rewrite Hj.
Qed.

(** Property X17: what a [Fetch] returns if it returns.  When the job of a
    batch returned the mapping [vals] and a nil error, every participant
    of the batch that has returned has returned [(vals[id], true, nil)] if
    its id is in the mapping and [(nil, false, nil)] if it is not; and the
    last statement of each of the three paths of [Fetch] (lines 67-69,
    91-95, 128-132), once the barrier of the batch is released, is enabled
    and returns exactly that.  Whether a participant gets that far is
    another matter. *)
Theorem fetch_reads_mapping job w mb cs s l vals b :
  reachable (start (Some job) w mb cs) s →
  (b, l) ∈ calls s → job l = Returns (vals, None) →
  (∀ t g r, pool s !! t = Some g → g_pc g = PReturn b r →
     r = found_in vals (g_id g)) ∧
  (∀ t g bt, st s = Running → pool s !! t = Some g →
     returning (g_pc g) = Some b → heap s !! b = Some bt → b_wg bt = 0 →
     ∃ s', step s (Run t) = Some s' ∧
       pool s' !! t = Some (Go (g_id g) (PReturn b (found_in vals (g_id g))))).
Proof.
  intros Hr Hc Hj. pose proof (start_inv _ _ _ _ _ Hr) as I.
  assert (∀ bt id, heap s !! b = Some bt → b_wg bt = 0 →
            read bt id = found_in vals id) as Hread.
  { intros bt id Hbt Hwg.
    destruct (read_released s b bt id I Hbt Hwg) as (l' & job' & Hc' & Hf & ->).
    rewrite (start_job _ _ _ _ _ Hr) in Hf. simplify_eq.
    rewrite <-(calls_once s b l l' I Hc Hc'), Hj. unfold found_in. simpl.
    by destruct (vals !! id). }
  split.
  - intros t g r Hl Hpc.
    destruct (returned_reads _ _ _ _ _ _ _ _ _ _ Hr Hl Hpc Hc)
      as (vals' & err' & Hj' & ->).
    rewrite Hj in Hj'. simplify_eq.
    unfold found_in. by destruct (vals' !! g_id g).
  - intros t [id p] bt Hst Hl Hp Hbt Hwg. simpl in *.
    assert (t < length (pool s)) as Hlt by (by eapply lookup_lt_Some).
    unfold step. rewrite Hst. simpl. rewrite Hl. simpl.
    destruct p; simplify_eq/=; rewrite Hbt; simpl.
    + destruct (decide (b_wg bt = 0)); [|done]. eexists. split; [done|].
      simpl. by rewrite list_lookup_insert_eq, Hread.
    + eexists. split; [done|].
      simpl. by rewrite list_lookup_insert_eq, Hread.
    + eexists. split; [done|].
      simpl. by rewrite list_lookup_insert_eq, Hread.
Qed.

(** The example of the specification: the job, given ["a"; "b"], returns
    [{"a": "ABC"}]; the request for "a" gets [("ABC", true, nil)], the one
    for "b" gets [(nil, false, nil)], from the same call. *)
Lemma fetch_reads_mapping_witness :
  let s0 := two_fetches job_abc in
  let s := after s0 sched_two in
  reachable s0 s ∧ (0, ["a"; "b"]) ∈ calls s ∧
  job_abc ["a"; "b"] = Returns ({["a" := IStr "ABC"]}, None) ∧
  pool s !! 0 = Some (Go "a" (PReturn 0 (Result (IStr "ABC") true None))) ∧
  pool s !! 1 = Some (Go "b" (PReturn 0 (Result INil false None))).
Proof.
  intros s0 s.
  assert (reachable s0 s) as Hr
    by (apply (run_reachable _ sched_two); vm_compute; reflexivity).
  assert ((0, ["a"; "b"]) ∈ calls s) as Hc by (vm_compute; left).
  pose proof (proj1 (fetch_reads_mapping job_abc 100 10 _ s ["a"; "b"]
                       {["a" := IStr "ABC"]} 0 Hr Hc eq_refl)) as Hret.
  split_and!; [done..| |].
  - assert (∃ r, pool s !! 0 = Some (Go "a" (PReturn 0 r))) as [r Hl]
      by (eexists; vm_compute; reflexivity).
    rewrite Hl. do 3 f_equal. exact (Hret 0 _ r Hl eq_refl).
  - assert (∃ r, pool s !! 1 = Some (Go "b" (PReturn 0 r))) as [r Hl]
      by (eexists; vm_compute; reflexivity).
    rewrite Hl. do 3 f_equal. exact (Hret 1 _ r Hl eq_refl).
Defined.

(** Claim C2 (for every batch whose job returns a mapping and a nil error,
    each participant's [Fetch(id)] returns [(vals[id], true, nil)] or
    [(nil, false, nil)]): the code breaks it, by not returning.  With
    maxBatch = 2, [Fetch("a")] opens a batch and [Fetch("b")] registers to
    it; [FetchNow] seals the batch, which leaves [b.csig] open; "b" then
    appends, finds two ids and goes for the size signal (lines 80-82)
    while the opener calls the job, which is given ["a"; "b"] and returns
    [{"a": "ABC"}] and a nil error.  The send of "b" has no receiver any
    more and "b" holds [fc.mu], which "a" needs at line 127: the barrier
    is released, the outcome is stored in the batch, and neither request
    ever returns. *)
Lemma fetch_never_returns_what_the_job_returned :
  let s0 := start (Some job_abc) 100 2 [CFetch "a"; CFetch "b"; CFetchNow] in
  let s := after s0 sched_sealed_then_full in
  run s0 sched_sealed_then_full = Some s ∧ st s = Running ∧
  calls s = [(0, ["a"; "b"])] ∧
  job_abc ["a"; "b"] = Returns ({["a" := IStr "ABC"]}, None) ∧
  heap s = [Batch {["a" := IStr "ABC"]} None ["a"; "b"] true 0 false] ∧
  pool s = [Go "a" (POCleanLock 0); Go "b" (PJSend 0);
            Go EmptyString (PNowReturn true)] ∧
  fc_mu (fc s) = true ∧
  (∀ a, step s a = None).
Proof.
  intros s0 s. split_and!; [vm_compute; reflexivity..|].
  intros [[|[|[|t]]]|[|[|[|t]]]]; vm_compute; reflexivity.
Qed.

(** The same schedule with a job that returns a mapping and an error: the
    error is stored in the batch and no participant ever receives it. *)
Lemma error_may_never_be_received :
  let s0 := start (Some job_both) 100 2 [CFetch "a"; CFetch "b"; CFetchNow] in
  let s := after s0 sched_sealed_then_full in
  run s0 sched_sealed_then_full = Some s ∧ st s = Running ∧
  calls s = [(0, ["a"; "b"])] ∧
  job_both ["a"; "b"] = Returns ({["a" := IStr "ABC"]}, Some "error") ∧
  heap s = [Batch {["a" := IStr "ABC"]} (Some "error") ["a"; "b"]
              true 0 false] ∧
  pool s = [Go "a" (POCleanLock 0); Go "b" (PJSend 0);
            Go EmptyString (PNowReturn true)] ∧
  (∀ a, step s a = None).
Proof.
  intros s0 s. split_and!; [vm_compute; reflexivity..|].
  intros [[|[|[|t]]]|[|[|[|t]]]]; vm_compute; reflexivity.
Qed.

(** Claim C3 fails as stated (an error makes every participant receive
    found=false and no value, the mapping being ignored): a job that
    returns both [{"a": "ABC"}] and an error makes [Fetch("a")] return
    [("ABC", true, error)]; lines 131-132 read the mapping whatever the
    error is. *)
Lemma error_does_not_hide_mapping :
  let s0 := one_fetch (Some job_both) 1 in
  let s := after s0 sched_one in
  run s0 sched_one = Some s ∧
  calls s = [(0, ["a"])] ∧
  job_both ["a"] = Returns ({["a" := IStr "ABC"]}, Some "error") ∧
  pool s = [Go "a" (PReturn 0 (Result (IStr "ABC") true (Some "error")))].
Proof. intros s0 s. split_and!; vm_compute; reflexivity. Qed.

(** ** Sealing *)

(** Property X2: a goroutine leaves the select of line 112 in three ways
    only: its timer expires, a joiner that reached [maxBatch] sends on
    [b.csig] (line 82), or [FetchNow] does (line 147). *)
Lemma seal_has_three_triggers s a s' t id b :
  step s a = Some s' → pool s !! t = Some (Go id (PSelect b)) →
  pool s' !! t ≠ Some (Go id (PSelect b)) →
  (a = Expire t ∧ pool s' !! t = Some (Go id (PTLock b))) ∨
  (∃ t' id', a = Run t' ∧ pool s' !! t = Some (Go id (PDetach b)) ∧
     (pool s !! t' = Some (Go id' (PJSend b)) ∨
      (pool s !! t' = Some (Go id' PNowSend) ∧ fc_b (fc s) = Some b))).
Proof.
  intros H Hl Hne.
  assert (t < length (pool s)) as Hlt by (by eapply lookup_lt_Some).
  step_inv H; simpl in *;
    try (destruct (decide (t0 = t)) as [->|Hd];
         [simplify_eq
         |exfalso; apply Hne; by rewrite ?list_lookup_insert_ne by done]).
  all: try done.
  - destruct (decide (t0 = t)) as [->|Hd]; [simplify_eq|].
    destruct (decide (r = t)) as [->|Hd'];
      [simplify_eq
      |exfalso; apply Hne; by rewrite !list_lookup_insert_ne by done].
    right. exists t0, id0. split_and!; [done| |by left].
    apply list_lookup_insert_eq. by rewrite length_insert.
  - destruct (decide (t0 = t)) as [->|Hd]; [simplify_eq|].
    destruct (decide (r = t)) as [->|Hd'];
      [simplify_eq
      |exfalso; apply Hne; by rewrite !list_lookup_insert_ne by done].
    right. exists t0, id0. split_and!; [done| |by right].
    apply list_lookup_insert_eq. by rewrite length_insert.
  - left. split; [done|]. by apply list_lookup_insert_eq.
Qed.

(** Claim C4 (a batch whose identifier count reaches maxBatchSize, also by
    its opening request alone when maxBatchSize = 1, seals at once): the
    code breaks it.  Only the joiner compares [len(b.ids)] with [fc.maxb]
    (line 80); the opener appends its own id (line 103) and goes to the
    select without that test.  With maxBatch = 1, after [Fetch("a")] has
    opened its batch the count has reached maxBatch, and yet nothing but
    the expiry of the timer can happen. *)
Lemma opener_at_maxBatch_still_waits_for_the_timer :
  let s0 := one_fetch (Some job_abc) 1 in
  let s := after s0 [Run 0; Run 0] in
  run s0 [Run 0; Run 0] = Some s ∧
  pool s = [Go "a" (PSelect 0)] ∧
  b_ids <$> heap s = [["a"]] ∧ fc_maxb (fc s) = 1%Z ∧
  st s = Running ∧
  (∀ a s', step s a = Some s' → a = Expire 0).
Proof.
  intros s0 s. split_and!; [vm_compute; reflexivity..|].
  intros [[|t]|[|t]] s'; by vm_compute.
Qed.

(** ** FetchNow *)


(** Property X3: without pending batch, a [FetchNow] that gets [fc.mu]
    returns [false] and leaves the fetcher, the batches and the other
    goroutines as they were. *)
Lemma FetchNow_without_batch s t id :
  st s = Running → pool s !! t = Some (Go id PNow) →
  fc_mu (fc s) = false → fc_b (fc s) = None →
  ∃ s', run s [Run t; Run t] = Some s' ∧
    pool s' = <[t := Go id (PNowReturn false)]> (pool s) ∧
    fc s' = fc s ∧ heap s' = heap s ∧ calls s' = calls s ∧ st s' = Running.
Proof.
  intros Hst Hl Hmu Hb.
  assert (t < length (pool s)) as Hlt by (by eapply lookup_lt_Some).
  eexists. simpl. unfold step. rewrite Hst. simpl. rewrite Hl. simpl.
  unfold lock_fc. rewrite Hmu. simpl. rewrite Hst. simpl.
  rewrite list_lookup_insert_eq by done. simpl. rewrite Hb. simpl.
  split; [done|]. simpl. rewrite list_insert_insert_eq, Hst.
  split_and!; try done. destruct (fc s); simpl in *; by subst.
Qed.


(** Claim C5 (FetchNow returns false without side effect when no batch is
    open, and returns true and forces the sealing whenever one is): the
    code breaks the second half.  [FetchNow] sends while it holds [fc.mu]
    (lines 138-147).  When the opener's select has already taken the timer
    case (line 113) and has not yet got the lock of line 114, [fc.b] is
    still set, [FetchNow] blocks in its send, which nobody will receive,
    and the opener blocks on the lock, which nobody will release: the
    batch is never executed and [FetchNow] never returns. *)
Lemma FetchNow_after_the_timer_fired_deadlocks :
  let s0 := start (Some job_abc) 100 10 [CFetch "a"; CFetchNow] in
  let s := after s0 sched_now_late in
  run s0 sched_now_late = Some s ∧
  st s = Running ∧ fc_b (fc s) = Some 0 ∧ fc_mu (fc s) = true ∧
  pool s = [Go "a" (PTLock 0); Go EmptyString PNowSend] ∧ calls s = [] ∧
  (∀ a, step s a = None).
Proof.
  intros s0 s. split_and!; [vm_compute; reflexivity..|].
  intros [[|[|t]]|[|[|t]]]; vm_compute; reflexivity.
Qed.

(** ** Appending and sealing *)

(** Property X5: a request enters a batch only through the routing
    decision (lines 73-77), and only the batch that is in the open slot at
    that moment, its id not being registered. *)
Lemma joins_only_the_open_batch s a s' t g' b :
  step s a = Some s' → pool s' !! t = Some g' → pending (g_pc g') = Some b →
  (∃ g, pool s !! t = Some g ∧ pending (g_pc g) = Some b) ∨
  (pool s !! t = Some (Go (g_id g') PRoute) ∧ fc_b (fc s) = Some b ∧
   fc_m (fc s) !! g_id g' = None).
Proof.
  intros H Hl Hp. step_inv H; simpl in *; look_inv; eauto.
Qed.

(** Claim C6 (no append succeeds once sealing has begun; a request that
    loses the race starts a new batch and is never dropped): the code
    breaks it.  The joiner decides under [fc.mu] (lines 73-77) and appends
    later under [b.mu] (lines 78-79), and nothing tells it that the batch
    was sealed in between.  Here the batch is sealed, detached and served
    with ["a"] while "b" is registered; the append of "b" then succeeds,
    no second batch is ever created, the job never sees "b", and
    [Fetch("b")] returns not-found from a job that finds every id. *)
Lemma joiner_appends_to_a_sealed_batch :
  let s0 := two_fetches job_all in
  let s1 := after s0 sched_sealed in
  let s2 := after s1 [Run 1; Run 1] in
  let s3 := after s2 [Run 0; Run 1; Run 1; Run 1; Run 1] in
  run s0 sched_sealed = Some s1 ∧
  pool s1 = [Go "a" (PWgDone 0); Go "b" (PJLockB 0)] ∧
  fc_b (fc s1) = None ∧ calls s1 = [(0, ["a"])] ∧
  b_ids <$> heap s1 = [["a"]] ∧
  run s1 [Run 1; Run 1] = Some s2 ∧
  b_ids <$> heap s2 = [["a"; "b"]] ∧
  run s2 [Run 0; Run 1; Run 1; Run 1; Run 1] = Some s3 ∧
  pool s3 !! 1 = Some (Go "b" (PReturn 0 (Result INil false None))) ∧
  calls s3 = [(0, ["a"])] ∧ length (heap s3) = 1 ∧
  (answer_of (job_all ["a"; "b"])).1 !! "b" = Some (IStr "b").
Proof. intros s0 s1 s2 s3. split_and!; vm_compute; reflexivity. Qed.

(** ** The registry *)




(** ** Construction *)

(** Claim C8 fails as stated (a non-positive maxBatchSize or a nil job
    makes construction fail): [NewFetcher] with a nil job and maxBatch 0
    returns a fetcher like any other; the nil job shows six statements
    into the first [Fetch], when line 154 calls it. *)
Lemma nil_job_and_zero_batch_are_accepted :
  let s0 := one_fetch None 0 in
  let s := after s0 sched_to_the_call in
  let s' := after s [Run 0] in
  st s0 = Running ∧ fc_f (fc s0) = None ∧ fc_maxb (fc s0) = 0%Z ∧
  run s0 sched_to_the_call = Some s ∧ st s = Running ∧
  pool s = [Go "a" (PDoFetch 0)] ∧
  step s (Run 0) = Some s' ∧
  st s' = Panicked "invalid memory address or nil pointer dereference".
Proof. intros s0 s s'. split_and!; vm_compute; reflexivity. Qed.

(** Claim C8, amended: [NewFetcher] validates nothing.  Whatever the job
    (nil included), maxWait and maxBatch, it returns a fetcher that holds
    them as given, with an empty registry, no pending batch and its lock
    free.  A maxBatch that [make] rejects (a negative one, or one above
    2^44) panics at first use, when a request is about to create a batch
    (line 102); a nil job panics at first use, when a batch is executed
    (line 154). *)
Theorem NewFetcher_validates_nothing job w mb cs :
  let s0 := start job w mb cs in
  st s0 = Running ∧
  fc s0 = MkFetcher w mb false ∅ None job ∧
  ∀ s t id, reachable s0 s → st s = Running →
    ((mb < 0)%Z ∨ (2 ^ 44 < mb)%Z → pool s !! t = Some (Go id PRoute) →
     fc_m (fc s) !! id = None → fc_b (fc s) = None →
     ∃ s', step s (Run t) = Some s' ∧
           st s' = Panicked "makeslice: cap out of range") ∧
    (job = None → ∀ b, pool s !! t = Some (Go id (PDoFetch b)) →
     ∃ s', step s (Run t) = Some s' ∧
           st s' = Panicked "invalid memory address or nil pointer dereference").
Proof.
  intros s0. split_and!; [done..|]. intros s t id Hr Hst.
  destruct (start_config _ _ _ _ _ Hr) as (Hf & Hmb & _).
  pose proof (start_inv _ _ _ _ _ Hr) as I. split.
  - intros Hbad%makeslice_panics_spec Hl Hm Hb. eexists. unfold step.
    rewrite Hst. simpl. rewrite Hl. simpl. rewrite Hm, Hb, Hmb, Hbad.
    by split.
  - intros -> b Hl.
    destruct (lookup_lt_is_Some_2 (heap s) b) as [bt Hbt].
    { by eapply (inv_ptr s I). }
    eexists. unfold step. rewrite Hst. simpl. rewrite Hl. simpl.
    rewrite Hbt. simpl. rewrite Hf. by split.
Qed.

Lemma NewFetcher_validates_nothing_witness :
  let s0 := start None 100 (-1) [CFetch "a"] in
  let s := after s0 [Run 0] in
  reachable s0 s ∧ st s = Running ∧ ((-1 < 0)%Z ∨ (2 ^ 44 < -1)%Z) ∧
  pool s !! 0 = Some (Go "a" PRoute) ∧
  ∃ s', step s (Run 0) = Some s' ∧
        st s' = Panicked "makeslice: cap out of range".
Proof.
  intros s0 s.
  assert (reachable s0 s) as Hr
    by (apply (run_reachable _ [Run 0]); vm_compute; reflexivity).
  assert ((-1 < 0)%Z ∨ (2 ^ 44 < -1)%Z) as Hbad by (left; reflexivity).
  split_and!; [done..|].
  exact (proj1 (proj2 (proj2 (NewFetcher_validates_nothing None 100 (-1)
           [CFetch "a"])) s 0 "a" Hr eq_refl) Hbad eq_refl eq_refl eq_refl).
Defined.

(** ** The seal signal *)

(** Claim C9 (delivering a seal signal never blocks for ever, and competing
    sources neither deadlock nor panic): the code breaks it.  Both senders
    send while holding [fc.mu], the lock the timer case needs before it can
    go on, and no flag tells a sender that the batch is sealed already.
    First schedule: the joiner reaches maxBatch = 2 and the timer case is
    chosen; the joiner takes [fc.mu] (line 81) before the opener does (line
    114), its send finds no receiver, and nothing can ever happen again.
    Second schedule: the timer path closes [b.csig] (line 115) while "b"
    is registered; "b" then appends, reaches maxBatch and sends on the
    closed channel, which panics. *)
Lemma seal_signal_can_deadlock_and_panic :
  let s0 := start (Some job_abc) 100 2 [CFetch "a"; CFetch "b"] in
  let s := after s0 sched_size_vs_timer in
  let s' := after s0 sched_send_on_closed in
  (run s0 sched_size_vs_timer = Some s ∧
   st s = Running ∧ fc_mu (fc s) = true ∧
   pool s = [Go "a" (PTLock 0); Go "b" (PJSend 0)] ∧
   (∀ a, step s a = None)) ∧
  (run s0 sched_send_on_closed = Some s' ∧
   pool s' = [Go "a" (PDoFetch 0); Go "b" (PJSend 0)] ∧
   st s' = Panicked "send on closed channel").
Proof.
  intros s0 s s'. split.
  - split_and!; [vm_compute; reflexivity..|].
    intros [[|[|t]]|[|[|t]]]; vm_compute; reflexivity.
  - split_and!; vm_compute; reflexivity.
Qed.

(** ** Requests for an id that is already registered *)

(** Claim C10: a [Fetch] whose id is already registered (lines 64-70)
    changes neither the registry, nor the open slot, nor any batch, nor the
    history of job calls, nor any other goroutine.  Its routing statement
    only releases the lock and leaves the goroutine waiting on the batch it
    found; its waiting statement passes only when the counter of that batch
    is zero and returns what [read] finds in the batch; and the goroutine
    has no statement left after that, so it removes no entry after
    completion either. *)
Theorem registered_fetch_only_waits_and_reads s t g s' :
  pool s !! t = Some g → on_registered_path s g →
  step s (Run t) = Some s' →
  fc_m (fc s') = fc_m (fc s) ∧ fc_b (fc s') = fc_b (fc s) ∧
  heap s' = heap s ∧ calls s' = calls s ∧
  (∀ t', t' ≠ t → pool s' !! t' = pool s !! t') ∧
  ((∃ b, fc_m (fc s) !! g_id g = Some b ∧
         pool s' !! t = Some (Go (g_id g) (PWait b)) ∧
         fc_mu (fc s') = false) ∨
   (∃ b bt, g_pc g = PWait b ∧ heap s !! b = Some bt ∧ b_wg bt = 0 ∧
         pool s' !! t = Some (Go (g_id g) (PReturn b (read bt (g_id g)))) ∧
         fc_mu (fc s') = fc_mu (fc s) ∧
         step s' (Run t) = None)).
Proof.
  intros Hl Hp H. unfold step in H. destruct (st s) eqn:Hst; [|done].
  simpl in H. rewrite Hl in H. simpl in H. destruct g as [id p].
  unfold on_registered_path in Hp. simpl in *.
  assert (t < length (pool s)) as Hlt by (by eapply lookup_lt_Some).
  destruct Hp as [[-> [b Hb]]|[b ->]]; simpl in H.
  - rewrite Hb in H. simplify_eq/=. split_and!; try done.
    + intros t' Hne. by rewrite list_lookup_insert_ne.
    + left. exists b. by rewrite list_lookup_insert_eq.
  - destruct (heap s !! b) as [bt|] eqn:Hbt; [|done]. simpl in H.
    destruct (decide (b_wg bt = 0)); [|done]. simplify_eq/=.
    split_and!; try done.
    + intros t' Hne. by rewrite list_lookup_insert_ne.
    + right. exists b, bt. split_and!; try done.
      * by rewrite list_lookup_insert_eq.
      * unfold step. simpl. rewrite Hst. simpl.
        by rewrite list_lookup_insert_eq.
Qed.

(** The statement before, [fc.mu.Lock()] of line 61, is common to all
    paths of [Fetch]: it takes the lock and changes nothing else. *)
Lemma fetch_lock_changes_only_the_lock s t id s' :
  pool s !! t = Some (Go id PFetch) → step s (Run t) = Some s' →
  fc_mu (fc s) = false ∧ fc_mu (fc s') = true ∧
  fc_m (fc s') = fc_m (fc s) ∧ fc_b (fc s') = fc_b (fc s) ∧
  heap s' = heap s ∧ calls s' = calls s ∧
  pool s' = <[t := Go id PRoute]> (pool s).
Proof.
  intros Hl H. unfold step in H. destruct (st s); [|done].
  simpl in H. rewrite Hl in H. simpl in H. unfold lock_fc in H.
  destruct (fc_mu (fc s)); [done|]. by simplify_eq/=.
Qed.

(** Two requests for "a": the second finds "a" registered to batch 0. *)
Lemma registered_fetch_only_waits_and_reads_witness :
  let s0 := start (Some job_abc) 100 10 [CFetch "a"; CFetch "a"] in
  let s := after s0 [Run 0; Run 0; Run 1] in
  let s' := after s [Run 1] in
  pool s !! 1 = Some (Go "a" PRoute) ∧ fc_m (fc s) !! "a" = Some 0 ∧
  step s (Run 1) = Some s' ∧
  fc_m (fc s') = fc_m (fc s) ∧ heap s' = heap s ∧ calls s' = calls s.
Proof.
  intros s0 s s'.
  assert (pool s !! 1 = Some (Go "a" PRoute)) as Hl
    by (vm_compute; reflexivity).
  assert (fc_m (fc s) !! "a" = Some 0) as Hm by (vm_compute; reflexivity).
  assert (step s (Run 1) = Some s') as Hs by (vm_compute; reflexivity).
  destruct (registered_fetch_only_waits_and_reads s 1 _ s' Hl
              (or_introl (conj eq_refl (ex_intro _ 0 Hm))) Hs)
    as (H1 & _ & H3 & H4 & _ & _).
  by split_and!.
Defined.

(** ** Locks, seal channel and completion barrier *)

Lemma unsealed_opener p b : unsealed p = Some b → opener p = Some b.
Proof. destruct p; naive_solver. Qed.

Lemma holds_b_served p b : holds_b p = Some b → served_by p = Some b.
Proof. destruct p; naive_solver. Qed.

Ltac fc_absurd D :=
  exfalso;
  match goal with
  | Hne : ?t ≠ ?t1, Hg : pool ?s !! ?t = Some _ |- _ =>
      apply Hne; eapply (d_fc_one s D); [exact Hg|eassumption|done|done]
  end.

Ltac fc_held D :=
  match goal with
  | Hg : pool ?s !! _ = Some _ |- fc_mu (fc ?s) = true =>
      by eapply (d_fc_held s D _ _ Hg)
  end.

Lemma dstep_fc_held s a s' : inv s → disciplined s → step s a = Some s' →
  ∀ t g, pool s' !! t = Some g → holds_fc (g_pc g) = true →
         fc_mu (fc s') = true.
Proof.
  intros I D H. step_inv H; simpl; intros t1 g1 H1 H2;
  look_inv; try done;
  try (by eapply (d_fc_held s D)).
  all: try (by fc_absurd D).
  all: fc_held D.
Qed.

Ltac fc_free_absurd D :=
  exfalso;
  match goal with
  | Hl : pool ?s !! _ = Some ?g, Hh : holds_fc (g_pc ?g) = true,
    Hf : fc_mu (fc ?s) = false |- _ =>
      by rewrite (d_fc_held s D _ _ Hl Hh) in Hf
  end.

Lemma dstep_fc_one s a s' : inv s → disciplined s → step s a = Some s' →
  ∀ t1 t2 g1 g2,
    pool s' !! t1 = Some g1 → pool s' !! t2 = Some g2 →
    holds_fc (g_pc g1) = true → holds_fc (g_pc g2) = true → t1 = t2.
Proof.
  intros I D H. step_inv H; simpl; intros t1 t2 g1 g2 H1 H2 Hh1 Hh2;
  look_inv; try done;
  try (by eapply (d_fc_one s D)).
  all: try (by fc_free_absurd D).
  all: by fc_absurd D.
Qed.

Ltac here t :=
  exists t; eexists; split;
  [ first [ apply list_lookup_insert_eq; rewrite ?length_insert;
            by eapply lookup_lt_Some
          | rewrite list_lookup_insert_ne by done;
            apply list_lookup_insert_eq; rewrite ?length_insert;
            by eapply lookup_lt_Some ]
  | done ].

Lemma dstep_fc_owner s a s' : inv s → disciplined s → step s a = Some s' →
  fc_mu (fc s') = true →
  ∃ t g, pool s' !! t = Some g ∧ holds_fc (g_pc g) = true.
Proof.
  intros I D H. step_inv H; simpl; intros Hmu; try done;
  try (by eapply (d_fc_owner s D)).
  all: try (by here t).
  all: try (by here r).
  all: try (by ex_jump; eapply (d_fc_owner s D)).
Qed.

Ltac b_absurd D :=
  exfalso;
  match goal with
  | Hne : ?t ≠ ?t1, Hg : pool ?s !! ?t = Some _ |- _ =>
      apply Hne; eapply (d_b_one s D); [exact Hg|eassumption|done|done]
  end.

Lemma dstep_b_held s a s' : inv s → disciplined s → step s a = Some s' →
  ∀ t g b bt,
    pool s' !! t = Some g → holds_b (g_pc g) = Some b →
    heap s' !! b = Some bt → b_mu bt = true.
Proof.
  intros I D H. step_inv H; simpl; intros t1 g1 b1 bt1 H1 H2 H3;
  look_inv; try done;
  try (by eapply (d_b_held s D)).
  all: try (by ptr_absurd I).
  all: try (by eapply (d_b_held s D _ _ _ _ Hg)).
  all: by b_absurd D.
Qed.

Ltac b_free_absurd D :=
  exfalso;
  match goal with
  | Hl : pool ?s !! _ = Some ?g, Hh : holds_b (g_pc ?g) = Some ?b,
    Hb : heap ?s !! ?b = Some ?bt, Hf : b_mu ?bt = false |- _ =>
      by rewrite (d_b_held s D _ _ _ _ Hl Hh Hb) in Hf
  end.

Lemma dstep_b_one s a s' : inv s → disciplined s → step s a = Some s' →
  ∀ t1 t2 g1 g2 b, pool s' !! t1 = Some g1 → pool s' !! t2 = Some g2 →
    holds_b (g_pc g1) = Some b → holds_b (g_pc g2) = Some b → t1 = t2.
Proof.
  intros I D H. step_inv H; simpl; intros t1 t2 g1 g2 b1 H1 H2 Hh1 Hh2;
  look_inv; try done;
  try (by eapply (d_b_one s D)).
  all: try (by b_free_absurd D).
  all: by b_absurd D.
Qed.

Lemma dstep_b_owner s a s' : inv s → disciplined s → step s a = Some s' →
  ∀ b bt, heap s' !! b = Some bt → b_mu bt = true →
    ∃ t g, pool s' !! t = Some g ∧ holds_b (g_pc g) = Some b.
Proof.
  intros I D H. step_inv H; simpl; intros b1 bt1 H1 H2;
  look_inv; try done;
  try (by eapply (d_b_owner s D)).
  all: try (by here t).
  all: by ex_jump; eapply (d_b_owner s D).
Qed.

Ltac unsealed_absurd I :=
  exfalso;
  match goal with
  | Hne : ?t ≠ ?t1, Hg : pool ?s !! ?t = Some _ |- _ =>
      apply Hne; eapply (inv_opener s I);
      [exact Hg|eassumption|done|by apply unsealed_opener]
  end.

Lemma dstep_open_channel s a s' : inv s → disciplined s → step s a = Some s' →
  ∀ t g b bt, pool s' !! t = Some g → unsealed (g_pc g) = Some b →
    heap s' !! b = Some bt → b_csig bt = false.
Proof.
  intros I D H. step_inv H; simpl; intros t1 g1 b1 bt1 H1 H2 H3;
  look_inv; try done; try lia;
  try (by eapply (d_open_channel s D)).
  all: try (by ptr_absurd I).
  all: try (by eapply (d_open_channel s D _ _ _ _ Hg)).
  all: by unsealed_absurd I.
Qed.

Lemma dstep_now s a s' : inv s → disciplined s → step s a = Some s' →
  ∀ t g, pool s' !! t = Some g → g_pc g = PNowSend → is_Some (fc_b (fc s')).
Proof.
  intros I D H. step_inv H; simpl; intros t1 g1 H1 H2;
  look_inv; try done;
  try (by eapply (d_now s D)).
  all: try (by fc_absurd D).
  exfalso. apply H. eapply (d_fc_one s D); [exact Hg|done|done|by rewrite H2].
Qed.

Lemma own_id s t id p : pool s !! t = Some (Go id p) → id ∈ g_id <$> pool s.
Proof.
  intros Hl. apply list_elem_of_fmap. exists (Go id p). split; [done|].
  by eapply list_elem_of_lookup_2.
Qed.

Lemma dstep_ids s a s' : inv s → disciplined s → step s a = Some s' →
  ∀ b bt x, heap s' !! b = Some bt → x ∈ b_ids bt → x ∈ g_id <$> pool s'.
Proof.
  intros I D H. rewrite (step_ids _ _ _ H).
  step_inv H; simpl; intros b1 bt1 x H1 H2;
  look_inv; try done;
  try (by eapply (d_ids s D)).
  - apply list_elem_of_singleton in H2 as ->. by eapply own_id.
  - apply elem_of_app in H2 as [?| ->%list_elem_of_singleton];
      [by eapply (d_ids s D)|by eapply own_id].
  - apply elem_of_app in H2 as [?| ->%list_elem_of_singleton];
      [by eapply (d_ids s D)|by eapply own_id].
Qed.

Lemma dstep_counter s a s' : inv s → disciplined s → step s a = Some s' →
  ∀ b bt, heap s' !! b = Some bt →
    b_wg bt = 0 ∨ ∃ t g, pool s' !! t = Some g ∧ opener (g_pc g) = Some b.
Proof.
  intros I D H. step_inv H; simpl; intros b1 bt1 H1;
  look_inv; try done;
  try (by eapply (d_counter s D)).
  all: try (by right; here t).
  all: try (by edestruct (d_counter s D) as [?|?]; [done|by left|right; ex_jump]).
  left. pose proof (inv_counter s I _ _ _ _ Hg eq_refl Hb) as Hw.
  rewrite Heqn in Hw. by simplify_eq.
Qed.

(** A panic is raised at one of the four sites, and nowhere else: no mutex
    is unlocked while free, no channel is closed twice, no counter goes
    below zero, and [FetchNow] finds a batch to signal and its channel
    open. *)
Lemma panic_step s a s' msg :
  inv s → disciplined s → step s a = Some s' → st s' = Panicked msg →
  ∃ t, a = Run t ∧ panic_site s t msg ∧
    pool s' = pool s ∧ heap s' = heap s ∧ fc s' = fc s.
Proof.
  intros I D H. step_inv H; simpl; intros Hw; unfold panic_site; simpl;
  rewrite ?Hst in Hw; try done.
  all: try (rewrite (d_fc_held s D _ _ Hg eq_refl), ?Hst in Hw; done).
  all: simplify_eq.
  all: try (by rewrite (d_b_held s D _ _ _ _ Hg eq_refl Hb) in Heqb0).
  all: try (by rewrite (d_open_channel s D _ _ _ _ Hg eq_refl Hb) in Heqb0).
  all: try (by rewrite (inv_counter s I _ _ _ _ Hg eq_refl Hb) in Heqn).
  all: try (by destruct (d_now s D _ _ Hg eq_refl) as [? ?]; simplify_eq).
  all: try (exfalso;
    destruct (d_slot s D _ _ Hopen Hb Heqb0) as (t0 & g0 & Hl0 & Hpc0);
    assert (t = t0) as <-
      by (eapply (d_fc_one s D); [exact Hg|exact Hl0|done|by rewrite Hpc0]);
    by simplify_eq).
  all: exists t; (split; [done|]); (split; [|done]).
  all: naive_solver.
Qed.

Lemma dstep_panic s a s' : inv s → disciplined s → step s a = Some s' →
  ∀ why, st s' = Panicked why → expected_panic s' why.
Proof.
  intros I D H msg Hw.
  destruct (panic_step s a s' msg I D H Hw) as (t & _ & Hsite & Hp & Hh & Hf).
  exists t. unfold panic_site. by rewrite Hp, Hh, Hf.
Qed.

Lemma dstep_owned s a s' : inv s → disciplined s → step s a = Some s' →
  ∀ x b, fc_m (fc s') !! x = Some b →
    ∃ t g, pool s' !! t = Some g ∧ (registrant (g_pc g) = Some b ∧ g_id g = x).
Proof.
  intros I D H. step_inv H; simpl; intros x b1 H1;
  look_inv; try done;
  try (by eapply (d_owned s D)).
  all: try (by here t).
  all: try (by ex_jump; eapply (d_owned s D)).
  all: destruct (d_owned s D _ _ H0) as (t0 & g0 & Hl0 & Hreg & Hid);
    exists t0, g0; (split; [|done]);
    rewrite list_lookup_insert_ne; [done|]; intros <-;
    rewrite Hg in Hl0; by simplify_eq.
Qed.

Lemma dstep_slot s a s' : inv s → disciplined s → step s a = Some s' →
  ∀ b bt, fc_b (fc s') = Some b → heap s' !! b = Some bt →
    b_csig bt = true → ∃ t g, pool s' !! t = Some g ∧ g_pc g = PDetach b.
Proof.
  intros I D H. step_inv H; simpl; intros b1 bt1 H1 H2 H3;
  look_inv; try done; try lia;
  try (by eapply (d_slot s D)).
  all: try (by here t).
  all: by ex_jump; eapply (d_slot s D).
Qed.

Lemma dstep_nonempty s a s' : inv s → disciplined s → step s a = Some s' →
  ∀ b bt, heap s' !! b = Some bt → b_ids bt ≠ [].
Proof.
  intros I D H. step_inv H; simpl; intros b1 bt1 H1;
  look_inv; try done;
  try (by eapply (d_nonempty s D)).
  all: by intros [? _]%app_eq_nil; eapply (d_nonempty s D).
Qed.

Lemma dstep_calls_nonempty s a s' : inv s → disciplined s → step s a = Some s' →
  ∀ b l, (b, l) ∈ calls s' → l ≠ [].
Proof.
  intros I D H. step_inv H; simpl; intros b1 l1 H1;
  try (by eapply (d_calls_nonempty s D)).
  apply elem_of_cons in H1 as [?|?]; simplify_eq;
    [by eapply (d_nonempty s D)|by eapply (d_calls_nonempty s D)].
Qed.

(** Every statement preserves the invariant. *)
Lemma disciplined_step s a s' :
  inv s → disciplined s → step s a = Some s' → disciplined s'.
Proof.
  intros I D H. split.
  - by eapply dstep_fc_held.
  - by eapply dstep_fc_one.
  - by eapply dstep_fc_owner.
  - by eapply dstep_b_held.
  - by eapply dstep_b_one.
  - by eapply dstep_b_owner.
  - by eapply dstep_open_channel.
  - by eapply dstep_now.
  - by eapply dstep_slot.
  - by eapply dstep_nonempty.
  - by eapply dstep_ids.
  - by eapply dstep_calls_nonempty.
  - by eapply dstep_counter.
  - by eapply dstep_owned.
  - by eapply dstep_panic.
Qed.

Lemma disciplined_boot f cs :
  fc_mu f = false → fc_m f = ∅ → fc_b f = None → disciplined (boot f cs).
Proof.
  intros Hmu Hm Hb.
  assert (∀ t g, pool (boot f cs) !! t = Some g → g_pc g = PFetch ∨ g_pc g = PNow)
    as Hpc.
  { simpl. intros t g Hl. rewrite list_lookup_fmap in Hl.
    destruct (cs !! t) as [[|]|]; simplify_eq/=; auto. }
  split.
  - intros t g Hl. by destruct (Hpc t g Hl) as [-> | ->].
  - intros t1 t2 g1 g2 Hl. by destruct (Hpc _ _ Hl) as [-> | ->].
  - simpl. by rewrite Hmu.
  - intros t g b bt Hl. by destruct (Hpc _ _ Hl) as [-> | ->].
  - intros t1 t2 g1 g2 b Hl. by destruct (Hpc _ _ Hl) as [-> | ->].
  - done.
  - intros t g b bt Hl. by destruct (Hpc _ _ Hl) as [-> | ->].
  - intros t g Hl. by destruct (Hpc _ _ Hl) as [-> | ->].
  - simpl. intros b bt. by rewrite Hb.
  - done.
  - done.
  - simpl. by intros b l ?%elem_of_nil.
  - done.
  - simpl. intros x b. by rewrite Hm.
  - done.
Qed.

Lemma reachable_disciplined s0 s :
  inv s0 → disciplined s0 → reachable s0 s → disciplined s.
Proof.
  intros I0 D0. induction 1 as [|s a s' Hr IH Hs]; [done|].
  eapply disciplined_step; [|done..]. by eapply reachable_inv.
Qed.

Lemma start_disciplined job w mb cs s :
  reachable (start job w mb cs) s → disciplined s.
Proof.
  apply reachable_disciplined; [by apply inv_boot|by apply disciplined_boot].
Qed.

(** Property X6: the mutexes are used correctly.  At most one goroutine is
    inside a section guarded by [fc.mu], and [fc.mu] is held exactly while
    one is; this includes lines 119-120, which the opener reaches without
    a [Lock] of its own when it is signalled, the sender (lines 82, 147)
    having taken the lock and leaving the [Unlock] of line 120 to it.  The
    same holds for the mutex of every batch and lines 78-84. *)
Theorem locks_are_exclusive job w mb cs s :
  reachable (start job w mb cs) s →
  (∀ t1 t2 g1 g2, pool s !! t1 = Some g1 → pool s !! t2 = Some g2 →
     holds_fc (g_pc g1) = true → holds_fc (g_pc g2) = true → t1 = t2) ∧
  (fc_mu (fc s) = true ↔
   ∃ t g, pool s !! t = Some g ∧ holds_fc (g_pc g) = true) ∧
  (∀ b t1 t2 g1 g2, pool s !! t1 = Some g1 → pool s !! t2 = Some g2 →
     holds_b (g_pc g1) = Some b → holds_b (g_pc g2) = Some b → t1 = t2) ∧
  (∀ b bt, heap s !! b = Some bt →
     (b_mu bt = true ↔
      ∃ t g, pool s !! t = Some g ∧ holds_b (g_pc g) = Some b)).
Proof.
  intros Hr. pose proof (start_inv _ _ _ _ _ Hr) as I.
  pose proof (start_disciplined _ _ _ _ _ Hr) as D.
  split_and!.
  - apply (d_fc_one s D).
  - split; [apply (d_fc_owner s D)|].
    intros (t & g & Hl & Hh). by eapply (d_fc_held s D).
  - intros b t1 t2 g1 g2. apply (d_b_one s D).
  - intros b bt Hb. split; [by apply (d_b_owner s D)|].
    intros (t & g & Hl & Hh). by eapply (d_b_held s D).
Qed.

(** Property X7: where a call can panic.  Every panic of the program is
    raised by one goroutine executing one of four statements: the size
    signal of a joiner (line 82) on a channel that the timer case has
    closed; the [make] of line 102, when no batch is pending and
    [maxBatch] is negative or above 2^44; line 154 with a nil job; line
    154 with a job that panics for the ids of the batch.  So [FetchNow]
    never panics ([fc.b] is not nil at line 147 and its channel is open),
    no mutex is unlocked while free, no channel is closed twice and the
    wait-group counter never goes below zero. *)
Theorem panics_come_from_four_statements job w mb cs s' why :
  reachable (start job w mb cs) s' → st s' = Panicked why →
  ∃ s t, reachable (start job w mb cs) s ∧ st s = Running ∧
    step s (Run t) = Some s' ∧
    ((∃ id b bt, pool s !! t = Some (Go id (PJSend b)) ∧
        heap s !! b = Some bt ∧ b_csig bt = true ∧
        why = "send on closed channel") ∨
     (∃ id, pool s !! t = Some (Go id PRoute) ∧
        fc_m (fc s) !! id = None ∧ fc_b (fc s) = None ∧
        ((mb < 0)%Z ∨ (2 ^ 44 < mb)%Z) ∧
        why = "makeslice: cap out of range") ∨
     (∃ id b, pool s !! t = Some (Go id (PDoFetch b)) ∧ job = None ∧
        why = "invalid memory address or nil pointer dereference") ∨
     (∃ id b bt j, pool s !! t = Some (Go id (PDoFetch b)) ∧
        heap s !! b = Some bt ∧ job = Some j ∧
        j (b_ids bt) = Panics why)).
Proof.
  intros Hr Hw. destruct Hr as [|s a s' Hr Hs]; [done|].
  pose proof (start_inv _ _ _ _ _ Hr) as I.
  pose proof (start_disciplined _ _ _ _ _ Hr) as D.
  destruct (start_config _ _ _ _ _ Hr) as (Hj & Hmb & _).
  destruct (panic_step s a s' why I D Hs Hw) as (t & -> & Hsite & _).
  exists s, t. split_and!; [done| |done|].
  - unfold step in Hs. by destruct (st s).
  - subst job mb.
    destruct Hsite as [(id & b & bt & ? & ? & ? & ?)
                      |[(id & ? & ? & ? & Hbad%makeslice_panics_spec & ?)
                       |[(id & b & ? & ? & ?)
                        |(id & b & bt & j & ? & ? & ? & ?)]]].
    + left. by exists id, b, bt.
    + right. left. by exists id.
    + right. right. left. by exists id, b.
    + right. right. right. by exists id, b, bt, j.
Qed.

(** Property X8: nothing is left behind.  Whenever no call is in progress
    (every goroutine has returned or has not started), the registry is
    empty, no batch is pending, [fc.mu] is free, and every batch ever
    created has its mutex free, its barrier released and its job call
    done. *)
Theorem fetcher_at_rest_is_clean job w mb cs s :
  reachable (start job w mb cs) s →
  (∀ t g, pool s !! t = Some g → at_rest (g_pc g) = true) →
  fc_m (fc s) = ∅ ∧ fc_b (fc s) = None ∧ fc_mu (fc s) = false ∧
  ∀ b bt, heap s !! b = Some bt →
    b_mu bt = false ∧ b_wg bt = 0 ∧ ∃ l, (b, l) ∈ calls s.
Proof.
  intros Hr Hrest. pose proof (start_inv _ _ _ _ _ Hr) as I.
  pose proof (start_disciplined _ _ _ _ _ Hr) as D.
  split_and!.
  - apply map_empty. intros x. destruct (fc_m (fc s) !! x) as [b|] eqn:Hx; [|done].
    destruct (d_owned s D _ _ Hx) as (t & g & Hl & Hreg & _).
    specialize (Hrest _ _ Hl). by destruct (g_pc g).
  - destruct (fc_b (fc s)) as [b|] eqn:Hb; [|done].
    destruct (inv_open s I _ Hb) as (t & g & Hl & Ho).
    specialize (Hrest _ _ Hl). by destruct (g_pc g).
  - destruct (fc_mu (fc s)) eqn:Hmu; [|done].
    destruct (d_fc_owner s D Hmu) as (t & g & Hl & Ho).
    specialize (Hrest _ _ Hl). by destruct (g_pc g).
  - intros b bt Hb. split_and!.
    + destruct (b_mu bt) eqn:Hmu; [|done].
      destruct (d_b_owner s D _ _ Hb Hmu) as (t & g & Hl & Ho).
      specialize (Hrest _ _ Hl). by destruct (g_pc g).
    + destruct (d_counter s D _ _ Hb) as [?|(t & g & Hl & Ho)]; [done|].
      specialize (Hrest _ _ Hl). by destruct (g_pc g).
    + destruct (inv_live s I _ _ Hb) as [?|(t & g & Hl & Ho)]; [done|].
      specialize (Hrest _ _ Hl). by destruct (g_pc g).
Qed.

(** ** One batch, one outcome *)

(** Property X9: requests served by the same batch see the same outcome:
    they return the same error, and two requests for the same id return
    the same triple. *)
Theorem participants_share_the_outcome job w mb cs s t1 t2 g1 g2 b r1 r2 :
  reachable (start job w mb cs) s →
  pool s !! t1 = Some g1 → pool s !! t2 = Some g2 →
  g_pc g1 = PReturn b r1 → g_pc g2 = PReturn b r2 →
  r_err r1 = r_err r2 ∧ (g_id g1 = g_id g2 → r1 = r2).
Proof.
  intros Hr Hl1 Hl2 Hp1 Hp2. pose proof (start_inv _ _ _ _ _ Hr) as I.
  destruct (inv_return s I _ _ _ _ Hl1 Hp1) as (l1 & j1 & Hc1 & Hj1 & ->).
  destruct (inv_return s I _ _ _ _ Hl2 Hp2) as (l2 & j2 & Hc2 & Hj2 & ->).
  rewrite (calls_once s b l1 l2 I Hc1 Hc2). simplify_eq. simpl.
  split; [done|]. by intros ->.
Qed.

(** Property X10: an id is queued once.  No two requests that are
    registered (between their line 76 or 107 and their [delete]) have the
    same id; and a [Fetch] that takes its routing decision while a request
    with its id is registered to batch [b] only releases the lock and
    waits for [b] (lines 64-67): it creates no batch, appends nothing and
    leaves registry and open slot as they are. *)
Theorem id_is_queued_once job w mb cs s :
  reachable (start job w mb cs) s →
  (∀ t1 t2 g1 g2 b1 b2, pool s !! t1 = Some g1 → pool s !! t2 = Some g2 →
     registrant (g_pc g1) = Some b1 → registrant (g_pc g2) = Some b2 →
     g_id g1 = g_id g2 → t1 = t2) ∧
  (∀ t id t' g' b, pool s !! t = Some (Go id PRoute) →
     pool s !! t' = Some g' → registrant (g_pc g') = Some b → g_id g' = id →
     st s = Running →
     ∃ s', step s (Run t) = Some s' ∧
       pool s' = <[t := Go id (PWait b)]> (pool s) ∧ heap s' = heap s ∧
       fc_m (fc s') = fc_m (fc s) ∧ fc_b (fc s') = fc_b (fc s) ∧
       calls s' = calls s).
Proof.
  intros Hr. pose proof (start_inv _ _ _ _ _ Hr) as I. split.
  - apply (inv_reg_unique s I).
  - intros t id t' g' b Hl Hl' Hreg Hid Hst.
    pose proof (inv_registered s I _ _ _ Hl' Hreg) as Hm. rewrite Hid in Hm.
    unfold step. rewrite Hst. simpl. rewrite Hl. simpl. rewrite Hm.
    by eexists.
Qed.


(** ** Progress *)

Lemma sum_insert {A} (f : A → nat) (l : list A) t g g' :
  l !! t = Some g →
  sum_list_with f (<[t := g']> l) + f g = sum_list_with f l + f g'.
Proof.
  revert t. induction l as [|x l IH]; intros [|t] Hl; simplify_eq/=; [lia|].
  specialize (IH t Hl). lia.
Qed.

Ltac fuel_step :=
  try match goal with
  | Hr : ?l !! ?r = Some ?g, Hne : ?r ≠ ?t
    |- context [<[?r := _]> (<[?t := ?gt]> ?l)] =>
      assert (<[t := gt]> l !! r = Some g)
        by (by rewrite list_lookup_insert_ne by done)
  end;
  repeat match goal with
  | Hl : ?l !! ?t = Some ?g |- context [sum_list_with ?f (<[?t := ?g']> ?l)] =>
      pose proof (sum_insert f l t g g' Hl);
      generalize dependent (sum_list_with f (<[t := g']> l)); intros
  | Hl : ?l !! ?t = Some ?g,
    H : context [sum_list_with ?f (<[?t := ?g']> ?l)] |- _ =>
      pose proof (sum_insert f l t g g' Hl);
      generalize dependent (sum_list_with f (<[t := g']> l)); intros
  end.

(** Every transition uses up fuel. *)
Lemma step_fuel s a s' : step s a = Some s' → fuel s' < fuel s.
Proof.
  intros H. step_inv H; unfold fuel; simpl; rewrite ?Hst;
  try (destruct (fc_mu (fc s)); rewrite ?Hst);
  fuel_step; simpl in *; lia.
Qed.

Lemma run_fuel s l s' : run s l = Some s' → length l + fuel s' ≤ fuel s.
Proof.
  revert s. induction l as [|a l IH]; simpl; intros s H; [by simplify_eq|].
  destruct (step s a) as [s1|] eqn:Hs; [|done]. simpl in H.
  apply step_fuel in Hs. apply IH in H. lia.
Qed.

Lemma fuel_boot f cs : fuel (boot f cs) ≤ 10 * length cs + 1.
Proof.
  unfold fuel. simpl.
  assert (sum_list_with (λ g, rank (g_pc g)) (spawn <$> cs) ≤ 10 * length cs);
    [|lia].
  induction cs as [|c cs IH]; [simpl; lia|].
  rewrite fmap_cons. cbn [sum_list_with length]. destruct c; simpl; lia.
Qed.

(** Property X12: no call loops or retries.  Whatever the scheduler does,
    the program of [n] calls makes at most [10 n + 1] transitions: 10
    statements per [Fetch] at most (3 for [FetchNow]), and a panic; the
    transitions made and the fuel left never exceed that bound. *)
Theorem every_schedule_is_finite job w mb cs l s :
  run (start job w mb cs) l = Some s →
  length l + fuel s ≤ 10 * length cs + 1.
Proof.
  intros H. apply run_fuel in H.
  pose proof (fuel_boot (NewFetcher job w mb) cs). unfold start in H. lia.
Qed.

(** A batch has no more ids than there are callers. *)
Lemma ids_bounded s t id b bt :
  inv s → disciplined s →
  pool s !! t = Some (Go id (PJAppend b)) → heap s !! b = Some bt →
  length (b_ids bt ++ [id]) ≤ length (pool s).
Proof.
  intros I D Hl Hb. rewrite <-(length_fmap g_id (pool s)).
  apply submseteq_length, NoDup_submseteq.
  - apply NoDup_snoc_fresh; [|by eapply (inv_nodup s I)].
    by apply (inv_pending s I t (Go id (PJAppend b)) b bt).
  - intros x [Hx| ->%list_elem_of_singleton]%elem_of_app.
    + by eapply (d_ids s D).
    + by eapply own_id.
Qed.

(** With fewer requests than [maxBatch] (or with one request) and no
    [FetchNow], no joiner ever reaches the size signal. *)
Lemma fetches_quiet job w mb xs s :
  (2 ≤ length xs → (Z.of_nat (length xs) < mb)%Z) →
  reachable (start (Some job) w mb (CFetch <$> xs)) s →
  ∀ t g, pool s !! t = Some g → quiet (g_pc g) = true.
Proof.
  intros Hn Hr. induction Hr as [|s a s' Hr IH Hs].
  - simpl. intros t g Hl. rewrite <-list_fmap_compose, list_lookup_fmap in Hl.
    destruct (xs !! t); by simplify_eq/=.
  - pose proof (start_inv _ _ _ _ _ Hr) as I.
    pose proof (start_disciplined _ _ _ _ _ Hr) as D.
    destruct (start_config _ _ _ _ _ Hr) as (_ & Hmb & _).
    assert (length (pool s) = length xs) as Hlen.
    { rewrite <-(length_fmap g_id), (reachable_ids _ _ Hr), start_ids. done. }
    step_inv Hs; pose proof (IH _ _ Hg) as Hq; simpl in Hq; try done;
    simpl; intros t1 g1 Hl1; look_inv; try done; try (by eapply IH).
    pose proof (ids_bounded s _ _ _ _ I D Hg Hb) as Hle.
    pose proof (d_nonempty s D _ _ Hb) as Hne.
    rewrite length_app in Hle, Heqb0. simpl in Hle, Heqb0.
    apply Z.leb_le in Heqb0. destruct (b_ids bt); [done|]. simpl in *. lia.
Qed.

(** The ids of a batch are ids of callers, without repetition, and there
    is at least one. *)
Lemma ids_of_callers job w mb xs s b bt :
  reachable (start job w mb (CFetch <$> xs)) s → heap s !! b = Some bt →
  b_ids bt ≠ [] ∧ NoDup (b_ids bt) ∧ ∀ x, x ∈ b_ids bt → x ∈ xs.
Proof.
  intros Hr Hbt. pose proof (start_inv _ _ _ _ _ Hr) as I.
  pose proof (start_disciplined _ _ _ _ _ Hr) as D. split_and!.
  - by eapply (d_nonempty s D).
  - by eapply (inv_nodup s I).
  - intros x Hx. apply (d_ids s D _ _ _ Hbt) in Hx.
    by rewrite (reachable_ids _ _ Hr), start_ids in Hx.
Qed.

Lemma fetches_running job w mb xs s :
  makeslice_panics mb = false →
  (2 ≤ length xs → (Z.of_nat (length xs) < mb)%Z) →
  (∀ l, l ≠ [] → NoDup l → (∀ x, x ∈ l → x ∈ xs) → ∃ r, job l = Returns r) →
  reachable (start (Some job) w mb (CFetch <$> xs)) s → st s = Running.
Proof.
  intros Hcap Hn Hjob Hr. destruct (st s) as [|why] eqn:Hst; [done|]. exfalso.
  pose proof (start_disciplined _ _ _ _ _ Hr) as D.
  destruct (start_config _ _ _ _ _ Hr) as (Hj & Hmb & _).
  destruct (d_panic s D _ Hst)
    as (t & [(id & b & bt & Hl & _)
            |[(id & _ & _ & _ & Hbad & _)
             |[(id & b & _ & Hnil & _)
              |(id & b & bt & j & _ & Hbt & Hf & Hp)]]]).
  - by pose proof (fetches_quiet _ _ _ _ _ Hn Hr _ _ Hl).
  - congruence.
  - congruence.
  - destruct (ids_of_callers _ _ _ _ _ _ _ Hr Hbt) as (Hne & Hnd & Hsub).
    destruct (Hjob _ Hne Hnd Hsub). congruence.
Qed.

(** A goroutine that can execute its next statement. *)
Ltac runs t :=
  exists (Run t); unfold step;
  repeat match goal with
  | H : st _ = Running |- _ => rewrite H
  | H : pool _ !! t = Some _ |- _ => rewrite H
  | H : heap _ !! _ = Some _ |- _ => rewrite H
  | H : fc_mu _ = _ |- _ => rewrite H
  | H : fc_f _ = _ |- _ => rewrite H
  | H : _ (b_ids _) = Returns _ |- _ => rewrite H
  | H : b_wg _ = _ |- _ => rewrite H
  | H : b_mu _ = _ |- _ => rewrite H
  | _ => progress simpl
  | _ => progress unfold lock_fc
  end;
  repeat case_match; eauto.

Lemma opener_can_move s t g b job :
  inv s → disciplined s → st s = Running → fc_f (fc s) = Some job →
  (∀ b bt, heap s !! b = Some bt → ∃ r, job (b_ids bt) = Returns r) →
  fc_mu (fc s) = false →
  pool s !! t = Some g → opener (g_pc g) = Some b →
  ∃ a s', step s a = Some s'.
Proof.
  intros I D Hst Hj Hret Hmu Hl Ho.
  destruct (lookup_lt_is_Some_2 (heap s) b) as [bt Hbt].
  { eapply (inv_ptr s I); [done|]. by apply opener_served. }
  pose proof (inv_counter s I _ _ _ _ Hl Ho Hbt) as Hwg.
  destruct (Hret _ _ Hbt) as [r Hr].
  destruct g as [id p]. destruct p; simplify_eq/=.
  - exists (Expire t). unfold step. rewrite Hst. simpl. rewrite Hl. simpl. eauto.
  - runs t.
  - by rewrite (d_fc_held s D _ _ Hl eq_refl) in Hmu.
  - by rewrite (d_fc_held s D _ _ Hl eq_refl) in Hmu.
  - runs t.
  - runs t.
Qed.

Ltac batch_of I Hl :=
  match type of Hl with
  | pool ?s !! _ = Some (Go _ ?p) =>
      match eval simpl in (served_by p) with
      | Some ?b =>
          let bt := fresh "bt" in
          let Hbt := fresh "Hbt" in
          destruct (lookup_lt_is_Some_2 (heap s) b) as [bt Hbt];
          [by eapply (inv_ptr s I _ _ _ Hl)|]
      end
  end.

(** Without sender and with a job that returns, some goroutine can always
    move unless all have returned: the holder of [fc.mu] if there is one;
    else the goroutine that is not blocked, or the holder of the mutex or
    the opener of the batch it is blocked on. *)
Lemma quiet_progress s job :
  inv s → disciplined s → st s = Running → fc_f (fc s) = Some job →
  (∀ b bt, heap s !! b = Some bt → ∃ r, job (b_ids bt) = Returns r) →
  (∀ t g, pool s !! t = Some g → quiet (g_pc g) = true) →
  (∀ t g, pool s !! t = Some g → returned (g_pc g) = true) ∨
  ∃ a s', step s a = Some s'.
Proof.
  intros I D Hst Hj Hret Hq. destruct (fc_mu (fc s)) eqn:Hmu.
  - right. destruct (d_fc_owner s D Hmu) as (t & [id p] & Hl & Hh).
    pose proof (Hq _ _ Hl). destruct p; simplify_eq/=;
    try batch_of I Hl; runs t.
  - destruct (decide (Forall (λ g, returned (g_pc g) = true) (pool s)))
      as [Hall|Hex].
    { left. intros t g Hl. by eapply (Forall_lookup_1 _ _ _ _ Hall). }
    right. apply not_Forall_Exists in Hex; [|apply _].
    apply Exists_exists in Hex as ([id p] & [t Hl]%list_elem_of_lookup & Hp).
    pose proof (Hq _ _ Hl). simpl in Hp.
    destruct p; simplify_eq/=;
    try (by rewrite (d_fc_held s D _ _ Hl eq_refl) in Hmu);
    try (by eapply opener_can_move);
    try batch_of I Hl.
    + runs t.
    + destruct (d_counter s D _ _ Hbt) as [Hz|(t' & g' & Hl' & Ho)];
        [runs t|by eapply opener_can_move].
    + destruct (b_mu bt) eqn:Hbmu; [|runs t].
      destruct (d_b_owner s D _ _ Hbt Hbmu) as (t' & [id' p'] & Hl' & Ho).
      pose proof (Hq _ _ Hl'). destruct p'; simplify_eq/=; runs t'.
    + runs t.
    + runs t.
    + destruct (d_counter s D _ _ Hbt) as [Hz|(t' & g' & Hl' & Ho)];
        [runs t|by eapply opener_can_move].
    + runs t.
    + runs t.
Qed.

Lemma fetches_progress job w mb xs s :
  makeslice_panics mb = false →
  (2 ≤ length xs → (Z.of_nat (length xs) < mb)%Z) →
  (∀ l, l ≠ [] → NoDup l → (∀ x, x ∈ l → x ∈ xs) → ∃ r, job l = Returns r) →
  reachable (start (Some job) w mb (CFetch <$> xs)) s →
  (∀ t g, pool s !! t = Some g → ∃ b r, g_pc g = PReturn b r) ∨
  ∃ a s', step s a = Some s'.
Proof.
  intros Hcap Hn Hjob Hr.
  pose proof (fetches_quiet _ _ _ _ _ Hn Hr) as Hq.
  destruct (quiet_progress s job) as [Hall|?]; [..|by right].
  - by eapply start_inv.
  - by eapply start_disciplined.
  - by eapply fetches_running.
  - by eapply start_job.
  - intros b bt Hbt.
    destruct (ids_of_callers _ _ _ _ _ _ _ Hr Hbt) as (Hne & Hnd & Hsub).
    by apply Hjob.
  - done.
  - left. intros t g Hl. specialize (Hq _ _ Hl). specialize (Hall _ _ Hl).
    destruct (g_pc g); by eauto.
Qed.

Lemma fetches_complete job w mb xs n s :
  makeslice_panics mb = false →
  (2 ≤ length xs → (Z.of_nat (length xs) < mb)%Z) →
  (∀ l, l ≠ [] → NoDup l → (∀ x, x ∈ l → x ∈ xs) → ∃ r, job l = Returns r) →
  reachable (start (Some job) w mb (CFetch <$> xs)) s → fuel s ≤ n →
  ∃ l s', run s l = Some s' ∧
    ∀ t g, pool s' !! t = Some g → ∃ b r, g_pc g = PReturn b r.
Proof.
  intros Hcap Hn Hjob. revert s. induction n as [|n IH]; intros s Hr Hf.
  - exfalso. unfold fuel in Hf.
    rewrite (fetches_running _ _ _ _ _ Hcap Hn Hjob Hr) in Hf. lia.
  - destruct (fetches_progress _ _ _ _ _ Hcap Hn Hjob Hr)
      as [?|(a & s1 & Hs)].
    { by exists [], s. }
    destruct (IH s1) as (l & s' & Hrun & Hall).
    { by eapply reach_step. }
    { apply step_fuel in Hs. lia. }
    exists (a :: l), s'. split; [|done]. simpl. by rewrite Hs.
Qed.

(** Property X13: below [maxBatch], [Fetch] is safe and live.  When only
    [Fetch] is called, by fewer requests than [maxBatch], with a
    [maxBatch] of at most 2^20 and a job that returns for every non-empty
    duplicate-free list of requested ids (it neither panics nor hangs),
    then in every state the program can reach: it has not panicked; either
    every request has returned or some transition is enabled (no
    deadlock); and some schedule from there makes every request return.
    ([make] accepts capacities up to 2^44, but so large an allocation
    fails for lack of memory; 2^20 strings are 16 MiB.) *)
Theorem fetches_below_maxBatch_all_return job w mb xs s :
  (Z.of_nat (length xs) < mb)%Z → (mb ≤ 2 ^ 20)%Z →
  (∀ l, l ≠ [] → NoDup l → (∀ x, x ∈ l → x ∈ xs) → ∃ r, job l = Returns r) →
  reachable (start (Some job) w mb (CFetch <$> xs)) s →
  st s = Running ∧
  ((∀ t g, pool s !! t = Some g → ∃ b r, g_pc g = PReturn b r) ∨
   ∃ a s', step s a = Some s') ∧
  ∃ l s', run s l = Some s' ∧
    ∀ t g, pool s' !! t = Some g → ∃ b r, g_pc g = PReturn b r.
Proof.
  intros Hn Hmax Hjob Hr.
  assert (makeslice_panics mb = false) as Hcap.
  { apply not_true_is_false. rewrite makeslice_panics_spec. lia. }
  split_and!.
  - by eapply fetches_running.
  - by eapply fetches_progress.
  - by eapply fetches_complete.
Qed.

Lemma only_one {A} (x : A) (l : list A) :
  l ≠ [] → NoDup l → (∀ y, y ∈ l → y = x) → l = [x].
Proof.
  intros Hne Hnd Hall. destruct l as [|y [|z l]]; [done|..].
  - f_equal. apply Hall. by left.
  - exfalso. rewrite (Hall y), (Hall z) in Hnd by (by repeat constructor).
    apply NoDup_cons in Hnd as [Hnd _]. apply Hnd. by left.
Qed.

(** Property X14: a single [Fetch(id)] on a fresh fetcher, for any
    [maxWait], any [maxBatch] from 0 to 2^20 ([maxBatch <= 1] included)
    and any job that returns [(vals, err)] for [[id]]: the program never
    panics, from every state it can reach the request can run to its
    return, and when it has returned, the job has been called exactly
    once, with [[id]], and the request has returned [vals[id]], whether it
    is there, and [err]. *)
Theorem lone_fetch_returns_the_jobs_answer job w mb id vals err s :
  (0 ≤ mb)%Z → (mb ≤ 2 ^ 20)%Z → job [id] = Returns (vals, err) →
  reachable (start (Some job) w mb [CFetch id]) s →
  st s = Running ∧
  (∃ l s' b r, run s l = Some s' ∧ pool s' = [Go id (PReturn b r)]) ∧
  (∀ b r, pool s = [Go id (PReturn b r)] →
     calls s = [(b, [id])] ∧
     r = Result (default INil (vals !! id))
           (bool_decide (is_Some (vals !! id))) err).
Proof.
  intros Hmb Hmax Hans Hr.
  assert (makeslice_panics mb = false) as Hcap.
  { apply not_true_is_false. rewrite makeslice_panics_spec. lia. }
  assert (2 ≤ length [id] → (Z.of_nat (length [id]) < mb)%Z) as Hn
    by (simpl; lia).
  assert (∀ l, l ≠ [] → NoDup l → (∀ x, x ∈ l → x ∈ [id]) →
            ∃ r, job l = Returns r) as Hjob.
  { intros l Hne Hnd Hsub. rewrite (only_one id l Hne Hnd); [by eexists|].
    intros y Hy%Hsub. by apply list_elem_of_singleton in Hy. }
  change [CFetch id] with (CFetch <$> [id]) in Hr.
  pose proof (start_inv _ _ _ _ _ Hr) as I.
  pose proof (start_disciplined _ _ _ _ _ Hr) as D.
  assert (∀ s', reachable s s' → ∃ p, pool s' = [Go id p]) as Hpool.
  { intros s' Hr'. pose proof (reachable_trans _ _ _ Hr Hr') as Hr2.
    pose proof (reachable_ids _ _ Hr2) as Hids. rewrite start_ids in Hids.
    destruct (pool s') as [|[id' p] [|??]]; simplify_eq/=. by exists p. }
  split_and!.
  - by eapply fetches_running.
  - destruct (fetches_complete job w mb [id] (fuel s) s Hcap Hn Hjob Hr)
      as (l & s' & Hrun & Hall); [done|].
    destruct (Hpool s') as [p Hp]; [by eapply run_reachable|].
    destruct (Hall 0 (Go id p)) as (b & r & Hpc); [by rewrite Hp|].
    simpl in Hpc. subst p. by exists l, s', b, r.
  - intros b r Hp.
    assert (pool s !! 0 = Some (Go id (PReturn b r))) as Hl by (by rewrite Hp).
    destruct (inv_return s I _ _ _ _ Hl eq_refl) as (l & j & Hc & Hj & ->).
    rewrite (start_job _ _ _ _ _ Hr) in Hj. simplify_eq/=.
    assert (l = [id]) as ->.
    { destruct (lookup_lt_is_Some_2 (heap s) b) as [bt Hbt];
        [by eapply (inv_calls_ptr s I)|].
      destruct (inv_calls s I _ _ _ Hc Hbt) as (Hnd & Hpre & _).
      apply only_one; [by eapply (d_calls_nonempty s D)|done|].
      intros y Hy. eapply elem_of_prefix in Hy; [|done].
      apply (d_ids s D _ _ _ Hbt) in Hy. rewrite Hp in Hy. simpl in Hy.
      by apply list_elem_of_singleton in Hy. }
    split; [|by rewrite Hans].
    destruct (calls_at_most_one s b [id] (inv_calls_nodup s I)) as [Hnil|?];
      [|by rewrite Hnil in Hc; apply elem_of_nil in Hc|done].
    intros [b' l'] He.
    destruct (inv_caller s I _ _ He) as (t & g & Hlt & Hcb).
    rewrite Hp in Hlt. destruct t; simplify_eq/=.
    f_equal. by eapply calls_once.
Qed.

(** ** An error of the job *)

(** Claim C3, amended: when the job of a batch returned the mapping [vals]
    and the error [e], every participant that has returned has received
    exactly [e]; value and found are read from [vals] all the same, so a
    participant gets found=false and no value exactly when its id is
    absent from the mapping, as it is when the job returns a nil mapping
    with its error.  That a participant returns is not guaranteed (the
    program can block for good after the job has returned, as in
    [error_may_never_be_received]), except in this case: when only
    [Fetch] is called, by fewer requests than [maxBatch], with a
    [maxBatch] of at most 2^20 and a job that always returns, every state
    the program reaches can be continued to one where every request has
    returned, each with the error of the job call of its batch. *)
Theorem fetch_relays_error job w mb cs s :
  reachable (start (Some job) w mb cs) s →
  (∀ t g b r l vals e,
     pool s !! t = Some g → g_pc g = PReturn b r →
     (b, l) ∈ calls s → job l = Returns (vals, Some e) →
     r_err r = Some e ∧
     r_val r = default INil (vals !! g_id g) ∧
     r_ok r = bool_decide (is_Some (vals !! g_id g)) ∧
     (vals !! g_id g = None → r = Result INil false (Some e))) ∧
  (∀ xs, cs = CFetch <$> xs →
     (Z.of_nat (length xs) < mb)%Z → (mb ≤ 2 ^ 20)%Z →
     (∀ l, ∃ r, job l = Returns r) →
     ∃ sch s', run s sch = Some s' ∧
       ∀ t g, pool s' !! t = Some g →
         ∃ b r l, g_pc g = PReturn b r ∧ (b, l) ∈ calls s' ∧
           ∀ vals e, job l = Returns (vals, Some e) →
             r = Result (default INil (vals !! g_id g))
                   (bool_decide (is_Some (vals !! g_id g))) (Some e)).
Proof.
  intros Hr. split.
  - intros t g b r l vals e Hl Hpc Hc Hj.
    destruct (returned_reads _ _ _ _ _ _ _ _ _ _ Hr Hl Hpc Hc)
      as (vals' & err' & Hj' & ->).
    rewrite Hj in Hj'. simplify_eq. simpl.
    split_and!; [done..|]. by intros ->.
  - intros xs -> Hn Hmax Hjob.
    assert (makeslice_panics mb = false) as Hcap.
    { apply not_true_is_false. rewrite makeslice_panics_spec. lia. }
    destruct (fetches_complete job w mb xs (fuel s) s Hcap)
      as (sch & s' & Hrun & Hall); [lia|by intros l _ _ _|done..|].
    exists sch, s'. split; [done|]. intros t g Hl.
    destruct (Hall _ _ Hl) as (b & r & Hpc).
    assert (reachable (start (Some job) w mb (CFetch <$> xs)) s') as Hr'
      by (eapply reachable_trans; [done|by eapply run_reachable]).
    pose proof (start_inv _ _ _ _ _ Hr') as I'.
    destruct (inv_return s' I' _ _ _ _ Hl Hpc) as (l & j & Hc & _ & _).
    exists b, r, l. split_and!; [done..|]. intros vals e Hj.
    destruct (returned_reads _ _ _ _ _ _ _ _ _ _ Hr' Hl Hpc Hc)
      as (vals' & err' & Hj' & ->).
    rewrite Hj in Hj'. by simplify_eq.
Qed.

(** [TestFetchErr]: the job returns a nil mapping and an error. *)
Lemma fetch_relays_error_witness :
  let s0 := one_fetch (Some job_err) 1 in
  let s := after s0 sched_one in
  reachable s0 s ∧ (0, ["a"]) ∈ calls s ∧
  job_err ["a"] = Returns (∅, Some "error") ∧
  pool s !! 0 = Some (Go "a" (PReturn 0 (Result INil false (Some "error")))).
Proof.
  intros s0 s.
  assert (reachable s0 s) as Hr
    by (apply (run_reachable _ sched_one); vm_compute; reflexivity).
  assert ((0, ["a"]) ∈ calls s) as Hc by (vm_compute; left).
  split_and!; [done..|].
  assert (∃ r, pool s !! 0 = Some (Go "a" (PReturn 0 r))) as [r Hl]
    by (eexists; vm_compute; reflexivity).
  rewrite Hl. do 3 f_equal.
  exact (proj2 (proj2 (proj2
    (proj1 (fetch_relays_error job_err 100 1 _ s Hr)
       0 _ 0 r ["a"] ∅ "error" Hl eq_refl Hc eq_refl))) eq_refl).
Defined.

(** ** The timer and the size signal at work *)



(** ** Instances

    The properties above on the schedules of the examples. *)

Lemma seal_has_three_triggers_witness :
  let s := after (one_fetch (Some job_all) 10) [Run 0; Run 0] in
  let s' := after s [Expire 0] in
  step s (Expire 0) = Some s' ∧
  pool s !! 0 = Some (Go "a" (PSelect 0)) ∧
  pool s' !! 0 = Some (Go "a" (PTLock 0)).
Proof.
  intros s s'.
  assert (step s (Expire 0) = Some s') as Hs by (vm_compute; reflexivity).
  assert (pool s !! 0 = Some (Go "a" (PSelect 0))) as Hl
    by (vm_compute; reflexivity).
  assert (pool s' !! 0 ≠ Some (Go "a" (PSelect 0))) as Hne
    by (vm_compute; discriminate).
  split_and!; [done..|].
  destruct (seal_has_three_triggers s (Expire 0) s' 0 "a" 0 Hs Hl Hne)
    as [[_ H]|(t' & id' & Ha & _)]; [exact H|discriminate Ha].
Defined.

Lemma FetchNow_without_batch_witness :
  let s := now_alone in
  st s = Running ∧ pool s !! 0 = Some (Go EmptyString PNow) ∧
  fc_mu (fc s) = false ∧ fc_b (fc s) = None ∧
  ∃ s', run s [Run 0; Run 0] = Some s' ∧
    pool s' = <[0 := Go EmptyString (PNowReturn false)]> (pool s) ∧
    fc s' = fc s ∧ heap s' = heap s ∧ calls s' = calls s ∧ st s' = Running.
Proof.
  intros s. split_and!; [reflexivity..|].
  exact (FetchNow_without_batch s 0 EmptyString eq_refl eq_refl eq_refl eq_refl).
Defined.


Lemma joins_only_the_open_batch_witness :
  let s := after (two_fetches job_all) [Run 0; Run 0; Run 1] in
  let s' := after s [Run 1] in
  step s (Run 1) = Some s' ∧ pool s' !! 1 = Some (Go "b" (PJLockB 0)) ∧
  ((∃ g, pool s !! 1 = Some g ∧ pending (g_pc g) = Some 0) ∨
   (pool s !! 1 = Some (Go "b" PRoute) ∧ fc_b (fc s) = Some 0 ∧
    fc_m (fc s) !! "b" = None)).
Proof.
  intros s s'.
  assert (step s (Run 1) = Some s') as Hs by (vm_compute; reflexivity).
  assert (pool s' !! 1 = Some (Go "b" (PJLockB 0))) as Hl
    by (vm_compute; reflexivity).
  split_and!; [done..|].
  exact (joins_only_the_open_batch s (Run 1) s' 1 (Go "b" (PJLockB 0)) 0
           Hs Hl eq_refl).
Defined.

Lemma locks_are_exclusive_witness :
  let s0 := two_fetches job_all in
  let s := after s0 [Run 0; Run 0; Run 1] in
  reachable s0 s ∧ pool s !! 1 = Some (Go "b" PRoute) ∧
  (fc_mu (fc s) = true ↔
   ∃ t g, pool s !! t = Some g ∧ holds_fc (g_pc g) = true) ∧
  ∀ t1 t2 g1 g2, pool s !! t1 = Some g1 → pool s !! t2 = Some g2 →
    holds_fc (g_pc g1) = true → holds_fc (g_pc g2) = true → t1 = t2.
Proof.
  intros s0 s.
  assert (reachable s0 s) as Hr
    by (apply (run_reachable _ [Run 0; Run 0; Run 1]); vm_compute; reflexivity).
  pose proof (locks_are_exclusive (Some job_all) 100 10 _ s Hr)
    as (H1 & H2 & _).
  split_and!; [done|vm_compute; reflexivity|done..].
Defined.

Lemma panics_come_from_four_statements_witness :
  let s0 := start (Some job_abc) 100 2 [CFetch "a"; CFetch "b"] in
  let s' := after s0 sched_send_on_closed in
  reachable s0 s' ∧ st s' = Panicked "send on closed channel" ∧
  ∃ s t, reachable s0 s ∧ st s = Running ∧ step s (Run t) = Some s' ∧
    ∃ id b bt, pool s !! t = Some (Go id (PJSend b)) ∧
      heap s !! b = Some bt ∧ b_csig bt = true.
Proof.
  intros s0 s'.
  assert (reachable s0 s') as Hr
    by (apply (run_reachable _ sched_send_on_closed); vm_compute; reflexivity).
  assert (st s' = Panicked "send on closed channel") as Hst
    by (vm_compute; reflexivity).
  split_and!; [done..|].
  destruct (panics_come_from_four_statements (Some job_abc) 100 2 _ s' _
              Hr Hst) as (s & t & Hrs & Hrun & Hs & Hsite).
  exists s, t. split_and!; [done..|].
  destruct Hsite as [(id & b & bt & ? & ? & ? & _)
                    |[(? & _ & _ & _ & [Hbad|Hbad] & _)
                     |[(? & ? & _ & Hnil & _)|(? & ? & ? & j & _ & _ & Hj & Hp)]]].
  - by exists id, b, bt.
  - discriminate Hbad.
  - discriminate Hbad.
  - discriminate Hnil.
  - injection Hj as <-. discriminate Hp.
Defined.

Lemma fetcher_at_rest_is_clean_witness :
  let s0 := two_fetches job_abc in
  let s := after s0 sched_two in
  reachable s0 s ∧
  fc_m (fc s) = ∅ ∧ fc_b (fc s) = None ∧ fc_mu (fc s) = false ∧
  ∀ b bt, heap s !! b = Some bt →
    b_mu bt = false ∧ b_wg bt = 0 ∧ ∃ l, (b, l) ∈ calls s.
Proof.
  intros s0 s.
  assert (reachable s0 s) as Hr
    by (apply (run_reachable _ sched_two); vm_compute; reflexivity).
  assert (∀ t g, pool s !! t = Some g → at_rest (g_pc g) = true) as Hrest.
  { intros [|[|t]] g; vm_compute; intros [= <-]; reflexivity. }
  split; [done|].
  exact (fetcher_at_rest_is_clean (Some job_abc) 100 10 _ s Hr Hrest).
Defined.

Lemma participants_share_the_outcome_witness :
  let s := after same_id_twice sched_same_id in
  reachable same_id_twice s ∧
  ∃ r, pool s !! 0 = Some (Go "a" (PReturn 0 r)) ∧
       pool s !! 1 = Some (Go "a" (PReturn 0 r)).
Proof.
  intros s.
  assert (reachable same_id_twice s) as Hr
    by (apply (run_reachable _ sched_same_id); vm_compute; reflexivity).
  assert (∃ r, pool s !! 0 = Some (Go "a" (PReturn 0 r))) as [r1 Hl1]
    by (eexists; vm_compute; reflexivity).
  assert (∃ r, pool s !! 1 = Some (Go "a" (PReturn 0 r))) as [r2 Hl2]
    by (eexists; vm_compute; reflexivity).
  split; [done|]. exists r1. split; [done|]. rewrite Hl2. do 3 f_equal.
  symmetry.
  exact (proj2 (participants_share_the_outcome (Some job_abc) 100 10 _ s 0 1
                  _ _ 0 r1 r2 Hr Hl1 Hl2 eq_refl eq_refl) eq_refl).
Defined.

Lemma id_is_queued_once_witness :
  let s := after same_id_twice sched_same_id_routed in
  reachable same_id_twice s ∧
  pool s = [Go "a" (PSelect 0); Go "a" PRoute] ∧
  ∃ s', step s (Run 1) = Some s' ∧
    pool s' = <[1 := Go "a" (PWait 0)]> (pool s) ∧ heap s' = heap s ∧
    fc_m (fc s') = fc_m (fc s) ∧ fc_b (fc s') = fc_b (fc s) ∧
    calls s' = calls s.
Proof.
  intros s.
  assert (reachable same_id_twice s) as Hr
    by (apply (run_reachable _ sched_same_id_routed); vm_compute; reflexivity).
  split_and!; [done|vm_compute; reflexivity|].
  apply (proj2 (id_is_queued_once (Some job_abc) 100 10 _ s Hr)
           1 "a" 0 (Go "a" (PSelect 0)) 0); vm_compute; reflexivity.
Defined.

Lemma every_schedule_is_finite_witness :
  let s0 := one_fetch (Some job_all) 1 in
  let s := after s0 sched_one in
  run s0 sched_one = Some s ∧ length sched_one = 10 ∧ fuel s = 1 ∧
  length sched_one + fuel s ≤ 10 * 1 + 1.
Proof.
  intros s0 s.
  assert (run s0 sched_one = Some s) as Hrun by (vm_compute; reflexivity).
  split_and!; [done|reflexivity|vm_compute; reflexivity|].
  exact (every_schedule_is_finite (Some job_all) 100 1 [CFetch "a"]
           sched_one s Hrun).
Defined.

Lemma fetches_below_maxBatch_all_return_witness :
  let s0 := two_fetches job_all in
  let s := after s0 sched_registered in
  (Z.of_nat (length ["a"; "b"]) < 10)%Z ∧ (10 ≤ 2 ^ 20)%Z ∧
  (∀ l, ∃ r, job_all l = Returns r) ∧ reachable s0 s ∧
  st s = Running ∧
  ((∀ t g, pool s !! t = Some g → ∃ b r, g_pc g = PReturn b r) ∨
   ∃ a s', step s a = Some s') ∧
  ∃ l s', run s l = Some s' ∧
    ∀ t g, pool s' !! t = Some g → ∃ b r, g_pc g = PReturn b r.
Proof.
  intros s0 s.
  assert (Z.of_nat (length ["a"; "b"]) < 10)%Z as Hn by (simpl; lia).
  assert (10 ≤ 2 ^ 20)%Z as Hmax by lia.
  assert (∀ l, ∃ r, job_all l = Returns r) as Hjob
    by (intros l; eexists; reflexivity).
  assert (reachable s0 s) as Hr
    by (apply (run_reachable _ sched_registered); vm_compute; reflexivity).
  split; [done|]. split; [done|]. split; [done|]. split; [done|].
  exact (fetches_below_maxBatch_all_return job_all 100 10 ["a"; "b"] s
           Hn Hmax (λ l _ _ _, Hjob l) Hr).
Defined.


Lemma lone_fetch_returns_the_jobs_answer_witness :
  let s0 := one_fetch (Some job_err) 1 in
  let s := after s0 sched_one in
  (0 ≤ 1)%Z ∧ (1 ≤ 2 ^ 20)%Z ∧
  job_err ["a"] = Returns (∅, Some "error") ∧ reachable s0 s ∧
  pool s = [Go "a" (PReturn 0 (Result INil false (Some "error")))] ∧
  calls s = [(0, ["a"])].
Proof.
  intros s0 s.
  assert (0 ≤ 1)%Z as Hmb by lia.
  assert (1 ≤ 2 ^ 20)%Z as Hmax by lia.
  assert (reachable s0 s) as Hr
    by (apply (run_reachable _ sched_one); vm_compute; reflexivity).
  assert (pool s = [Go "a" (PReturn 0 (Result INil false (Some "error")))])
    as Hp by (vm_compute; reflexivity).
  split_and!; [done..|].
  exact (proj1 (proj2 (proj2
    (lone_fetch_returns_the_jobs_answer job_err 100 1 "a" ∅ (Some "error") s
       Hmb Hmax eq_refl Hr)) 0 _ Hp)).
Defined.


